(** * godotenv: the encoder, the file loaders and the process environment

    A shallow embedding of [godotenv.go].  Go strings are byte strings and
    are modelled by [string] (a list of 8-bit [ascii]); a
    [map[string]string] is a [gmap string string]; the process environment
    is the table of raw [KEY=VALUE] entries that [os.Environ] lists. *)

From Stdlib Require Import ZArith Ascii DecimalString.
From Stdlib Require String DecimalPos.
From stdpp Require Import gmap strings list sorting.

Local Open Scope Z_scope.

(** ** Characters named in the source *)

Definition backslash : ascii := "\"%char.
Definition newline : ascii := "010"%char.
Definition carriage_return : ascii := "013"%char.
Definition dquote : ascii := "034"%char.
Definition bang : ascii := "!"%char.
Definition dollar : ascii := "$"%char.
Definition backtick : ascii := "`"%char.
Definition equals_sign : ascii := "="%char.
Definition nul : ascii := "000"%char.

(** ** The parts of Go's standard library the file calls *)

Module strings.

(** [string(c)] for a one-byte rune. *)
Definition of_rune (c : ascii) : string := String c "".

(** [for _, c := range s] over a string whose runes are all one byte. *)
Fixpoint runes (s : string) : list ascii :=
  match s with
  | "" => []
  | String c s' => c :: runes s'
  end.

(** [strings.Replace(s, string(old), new, -1)]: every occurrence of the
    one-byte pattern [old] is replaced, scanning [s] once; the inserted
    text is not scanned again. *)
Fixpoint Replace (s : string) (old : ascii) (new : string) : string :=
  match s with
  | "" => ""
  | String c s' =>
      if decide (c = old) then new +:+ Replace s' old new
      else String c (Replace s' old new)
  end.

(** [strings.Split(s, string(sep))] for a one-byte separator: the pieces
    between the separators, a single piece [s] when there is none. *)
Fixpoint Split (s : string) (sep : ascii) : list string :=
  match s with
  | "" => [""]
  | String c s' =>
      if decide (c = sep) then "" :: Split s' sep
      else match Split s' sep with
           | [] => [String c ""]
           | w :: ws => String c w :: ws
           end
  end.

(** [strings.Join(elems, sep)]. *)
Fixpoint Join (elems : list string) (sep : string) : string :=
  match elems with
  | [] => ""
  | [e] => e
  | e :: rest => e +:+ sep +:+ Join rest sep
  end.

(** Byte membership, as in the loops of [syscall.Setenv]. *)
Fixpoint contains (c : ascii) (s : string) : bool :=
  match s with
  | "" => false
  | String x s' => bool_decide (x = c) || contains c s'
  end.

(** The last byte of a string, if any. *)
Fixpoint last (s : string) : option ascii :=
  match s with
  | "" => None
  | String c "" => Some c
  | String _ s' => last s'
  end.

End strings.

Module sort.
(** [sort.Strings]: increasing order for Go's [<] on strings, which
    compares byte by byte. *)
Definition Strings (x : list string) : list string :=
  merge_sort String.le x.
End sort.

Module strconv.

(** The width of [int], on the 64-bit platforms. *)
Definition intSize : Z := 64.

Definition digit (c : ascii) : option Z :=
  let n := Z.of_N (N_of_ascii c) in
  if bool_decide (48 <= n <= 57) then Some (n - 48) else None.

(** The digit loop shared by Atoi's fast path and [ParseUint]:
    [n = n*10 + int(ch)], failing on a byte that is not a digit. *)
Fixpoint digits (n : Z) (s : string) : option Z :=
  match s with
  | "" => Some n
  | String ch s' =>
      match digit ch with
      | Some d => digits (n * 10 + d) s'
      | None => None
      end
  end.

(** [strconv.Atoi]: an optional sign and one or more decimal digits, in
    the range of [int]; [None] stands for a non-nil [err] (a syntax or a
    range error). *)
Definition Atoi (s : string) : option Z :=
  let '(neg, body) :=
    match s with
    | String "-" r => (true, r)
    | String "+" r => (false, r)
    | _ => (false, s)
    end in
  match body with
  | "" => None
  | _ =>
      match digits 0 body with
      | None => None
      | Some un =>
          let n := if neg then - un else un in
          if bool_decide (- 2 ^ (intSize - 1) <= n < 2 ^ (intSize - 1))
          then Some n else None
      end
  end.

End strconv.

Module fmt.
(** The verb [%d] of [fmt.Sprintf] on an [int]. *)
Definition d (n : Z) : string := NilZero.string_of_int (Z.to_int n).
End fmt.

(** ** godotenv.go *)

(** The constant [doubleQuoteSpecialChars]: backslash, newline, carriage
    return, double quote, exclamation mark, dollar and backtick, in the
    order of the source's literal. *)
Definition doubleQuoteSpecialChars : string :=
  String backslash (String newline (String carriage_return
    (String dquote (String bang (String dollar (String backtick "")))))).

Definition doubleQuoteEscape (line : string) : string :=
  fold_left
    (fun line c =>
       let toReplace :=
         if decide (c = newline) then String backslash "n"
         else if decide (c = carriage_return) then String backslash "r"
         else String backslash (strings.of_rune c) in
       strings.Replace line c toReplace)
    (strings.runes doubleQuoteSpecialChars) line.

(** Go's [error] values that the file produces or passes on. *)
Inductive error : Type :=
  | noEnvFileLoadedErr               (* errors.New of the source *)
  | PathError (path : string)        (* os.Open *)
  | ReadError (path : string)        (* io.Copy *)
  | SyntaxError (msg : string)       (* parseBytes *)
  | EINVAL.                          (* syscall.Setenv *)

#[global] Instance error_eq_dec : EqDecision error.
Proof. solve_decision. Defined.

(** A value with an error beside it, for the library calls that return
    either. *)
Inductive result (A : Type) : Type :=
  | Ok (a : A)
  | Err (err : error).
Arguments Ok {A} a.
Arguments Err {A} err.

(** The process environment, after [syscall]'s [envs]: the raw entries, of
    which [KEY=VALUE] is cut at its first equals sign. *)
Module os.

Definition Env : Type := list string.

(** The key and the value of an entry, when it has an equals sign. *)
Fixpoint cut (s : string) : option (string * string) :=
  match s with
  | "" => None
  | String c s' =>
      if decide (c = equals_sign) then Some ("", s')
      else match cut s' with
           | Some (k, v) => Some (String c k, v)
           | None => None
           end
  end.

Definition has_key (key s : string) : bool :=
  match cut s with
  | Some (k, _) => bool_decide (k = key)
  | None => false
  end.

(** [os.Environ]: the entries that are not empty. *)
Definition Environ (e : Env) : list string :=
  filter (fun s => s ≠ "") e.

(** [os.LookupEnv]: the value of the first entry for [key]. *)
Definition LookupEnv (key : string) (e : Env) : option string :=
  if decide (key = "") then None
  else match List.find (has_key key) e with
       | Some s => snd <$> cut s
       | None => None
       end.

(** [envs[i] = kv] for the entry of [key], or [append(envs, kv)]. *)
Fixpoint store (key kv : string) (e : Env) : Env :=
  match e with
  | [] => [kv]
  | s :: e' => if has_key key s then kv :: e' else s :: store key kv e'
  end.

(** The test at the head of [syscall.Setenv]: an empty key, an equals
    sign or a NUL in the key, a NUL in the value. *)
Definition refuses (key value : string) : bool :=
  bool_decide (key = "")
  || strings.contains equals_sign key
  || strings.contains nul key
  || strings.contains nul value.

(** [os.Setenv]: [EINVAL] for what [refuses] names, and the environment is
    then unchanged. *)
Definition Setenv (key value : string) (e : Env) : Env * option error :=
  if refuses key value then (e, Some EINVAL)
  else (store key (key +:+ String equals_sign value) e, None).

(** The part of an entry before its first equals sign; the whole entry
    when it has none. *)
Definition entry_key (s : string) : string :=
  match cut s with
  | Some (k, _) => k
  | None => s
  end.

End os.

(** Go does not fix the order in which [range] visits a map: it is some
    enumeration of the entries. *)
Record MapOrder : Type := {
  range :> gmap string string -> list (string * string);
  range_perm : forall m, range m ≡ₚ map_to_list m
}.

Definition map_to_list_order : MapOrder :=
  {| range := map_to_list; range_perm := fun m => reflexivity _ |}.

(** What the file gets from outside: the order of its [range] loops;
    [path.Join]; [os.Open], where an open file is what [io.Copy] reads from
    it, its bytes or a read error; and the decoder [parseBytes], which
    lives in another file of the package: it fills [out], may consult the
    process environment, and returns its error. *)
Record World : Type := {
  order : MapOrder;
  path_Join : string -> string -> string;
  os_Open : string -> result (result string);
  parseBytes :
    os.Env -> string -> gmap string string ->
    gmap string string * option error
}.

(** [m[key]] on a [map[string]bool]: [false] for a missing key. *)
Definition index_bool (m : gmap string bool) (key : string) : bool :=
  default false (m !! key).

Definition filenamesOrDefault (filenames : list string) : list string :=
  match filenames with
  | [] => [".env"]
  | _ => filenames
  end.

(** The line [Marshal] appends for one entry: [Sprintf] of the key, an
    equals sign and the integer ([%d]), or of the key, an equals sign and
    the escaped value between double quotes. *)
Definition Marshal_line (kv : string * string) : string :=
  let '(k, v) := kv in
  match strconv.Atoi v with
  | Some d => k +:+ String equals_sign (fmt.d d)
  | None =>
      k +:+ String equals_sign
        (String dquote (doubleQuoteEscape v +:+ String dquote ""))
  end.

Section godotenv.

Variable w : World.

(** A [nil] map is [None]. *)
Definition UnmarshalBytes (e : os.Env) (src : string)
  : option (gmap string string) * option error :=
  let '(out, err) := parseBytes w e src ∅ in
  (Some out, err).

Definition Unmarshal (e : os.Env) (str : string) :=
  UnmarshalBytes e str.

Definition Parse (e : os.Env) (r : result string)
  : option (gmap string string) * option error :=
  match r with
  | Err err => (None, Some err)
  | Ok buf => UnmarshalBytes e buf
  end.

Definition readFile (dir filename : string) (e : os.Env)
  : option (gmap string string) * option error :=
  match os_Open w (path_Join w dir filename) with
  | Err err => (None, Some err)
  | Ok file => Parse e file
  end.

(** The file can be read and decoded in the environment [e]. *)
Definition readable (dir : string) (e : os.Env) (filename : string) : bool :=
  bool_decide ((readFile dir filename e).2 = None).

Definition Marshal (envMap : gmap string string) : string * option error :=
  let lines := Marshal_line <$> order w envMap in
  (strings.Join (sort.Strings lines) (String newline ""), None).

(** The first loop of [loadFile]: the keys of the environment listing. *)
Definition currentEnv_of (rawEnv : list string) : gmap string bool :=
  fold_left
    (fun currentEnv rawEnvLine =>
       let key := default "" (strings.Split rawEnvLine equals_sign !! 0%nat) in
       <[key := true]> currentEnv)
    rawEnv ∅.

(** The second loop of [loadFile]; the error of [os.Setenv] is dropped. *)
Definition setenv_loop (currentEnv : gmap string bool) (overload : bool)
    (entries : list (string * string)) (e : os.Env) : os.Env :=
  fold_left
    (fun e '(key, value) =>
       if negb (index_bool currentEnv key) || overload
       then fst (os.Setenv key value e)
       else e)
    entries e.

Definition loadFile (dir filename : string) (overload : bool) (e : os.Env)
  : os.Env * option error :=
  match readFile dir filename e with
  | (_, Some err) => (e, Some err)
  | (envMap, None) =>
      let currentEnv := currentEnv_of (os.Environ e) in
      (setenv_loop currentEnv overload (order w (default ∅ envMap)) e, None)
  end.

(** The loop of [LoadFrom] and of [OverloadFrom], which differ in the
    flag they pass to [loadFile]: the environment it leaves, [loaded],
    and the error of an early return. *)
Fixpoint loadFrom_loop (overload : bool) (dir : string) (strict : bool)
    (filenames : list string) (loaded : bool) (e : os.Env)
  : os.Env * bool * option error :=
  match filenames with
  | [] => (e, loaded, None)
  | filename :: rest =>
      match loadFile dir filename overload e with
      | (e', Some innerErr) =>
          if strict then (e', loaded, Some innerErr)
          else loadFrom_loop overload dir strict rest loaded e'
      | (e', None) => loadFrom_loop overload dir strict rest true e'
      end
  end.

(** The end of the three functions: the early return, or the test of
    [loaded]. *)
Definition finish (loaded : bool) (err : option error) : option error :=
  match err with
  | Some innerErr => Some innerErr
  | None => if loaded then None else Some noEnvFileLoadedErr
  end.

Definition LoadFrom (dir : string) (strict : bool)
    (filenames : list string) (e : os.Env) : os.Env * option error :=
  let '(e', loaded, err) :=
    loadFrom_loop false dir strict (filenamesOrDefault filenames) false e in
  (e', finish loaded err).

Definition OverloadFrom (dir : string) (strict : bool)
    (filenames : list string) (e : os.Env) : os.Env * option error :=
  let '(e', loaded, err) :=
    loadFrom_loop true dir strict (filenamesOrDefault filenames) false e in
  (e', finish loaded err).

Definition Load (strict : bool) (filenames : list string) (e : os.Env) :=
  LoadFrom "./" strict filenames e.

Definition Overload (strict : bool) (filenames : list string) (e : os.Env) :=
  OverloadFrom "./" strict filenames e.

(** [envMap[key] = value] for every entry of [individualEnvMap]. *)
Definition merge_into (envMap : gmap string string)
    (entries : list (string * string)) : gmap string string :=
  fold_left (fun envMap '(key, value) => <[key := value]> envMap)
    entries envMap.

Fixpoint readFrom_loop (dir : string) (strict : bool)
    (filenames : list string) (envMap : gmap string string)
    (loaded : bool) (e : os.Env)
  : gmap string string * bool * option error :=
  match filenames with
  | [] => (envMap, loaded, None)
  | filename :: rest =>
      match readFile dir filename e with
      | (_, Some individualErr) =>
          if strict then (envMap, loaded, Some individualErr)
          else readFrom_loop dir strict rest envMap loaded e
      | (individualEnvMap, None) =>
          readFrom_loop dir strict rest
            (merge_into envMap (order w (default ∅ individualEnvMap)))
            true e
      end
  end.

(** [envMap] is made before the loop, so what is returned is never the
    [nil] map. *)
Definition ReadFrom (dir : string) (strict : bool)
    (filenames : list string) (e : os.Env)
  : option (gmap string string) * option error :=
  let '(envMap, loaded, err) :=
    readFrom_loop dir strict (filenamesOrDefault filenames) ∅ false e in
  (Some envMap, finish loaded err).

Definition Read (strict : bool) (filenames : list string) (e : os.Env) :=
  ReadFrom "./" strict filenames e.

End godotenv.

(** ** The escaping as the specification words it

    One pass from left to right that writes the two-character escape of
    each special character and copies every other character. *)
Definition escape_char (c : ascii) : string :=
  if decide (c = newline) then String backslash "n"
  else if decide (c = carriage_return) then String backslash "r"
  else if bool_decide (c ∈ [backslash; dquote; bang; dollar; backtick])
  then String backslash (String c "")
  else String c "".

Fixpoint escape_single_pass (v : string) : string :=
  match v with
  | "" => ""
  | String c v' => escape_char c +:+ escape_single_pass v'
  end.

(** Substituting a string for every character. *)
Fixpoint subst_chars (f : ascii -> string) (s : string) : string :=
  match s with
  | "" => ""
  | String c s' => f c +:+ subst_chars f s'
  end.

(** ** The text of an encoding as the specification words it

    The lines in their order, each one followed by one newline.  The text
    that the encoder returns is this without its last newline: a newline
    stands between two lines and none after the last. *)
Definition each_line_terminated (lines : list string) : string :=
  foldr (fun line text => line +:+ String newline text) "" lines.

(** ** A small world for the examples *)
Module Example.

(** [path.Join] on the paths of the examples: a plain file name (no
    slash, not empty, no dot element) under a directory that is the
    current one, written as the empty path, a dot or a dot and a slash,
    or a clean path with at most one slash at its end.  There the joined
    and cleaned path is the file name alone, or the directory, one slash
    and the file name. *)
Definition path_Join (dir filename : string) : string :=
  if decide (dir = "" \/ dir = "." \/ dir = "./") then filename
  else if decide (strings.last dir = Some "/"%char) then dir +:+ filename
  else dir +:+ String "/" filename.

(** Modelled from the spec: the decoder [parseBytes], which is not in
    [godotenv.go], on files made of plain [KEY=VALUE] lines only (no
    quotes, comments, references, [export] or blanks around the parts).
    There the spec's decoder stores the text after the first equals sign
    under the key before it, a later line overwriting an earlier one, and
    fails on a line without separator or with an empty key. *)
Fixpoint parse_lines (lines : list string) (out : gmap string string)
  : gmap string string * option error :=
  match lines with
  | [] => (out, None)
  | line :: rest =>
      if decide (line = "") then parse_lines rest out
      else match os.cut line with
           | None => (out, Some (SyntaxError "missing separator"))
           | Some ("", _) => (out, Some (SyntaxError "empty key"))
           | Some (key, value) => parse_lines rest (<[key := value]> out)
           end
  end.

Definition parseBytes (_ : os.Env) (src : string)
    (out : gmap string string) : gmap string string * option error :=
  parse_lines (strings.Split src newline) out.

(** The files on disk. *)
Definition os_Open (path : string) : result (result string) :=
  if decide (path = "a.env") then Ok (Ok "K=1")
  else if decide (path = "b.env") then Ok (Ok "K=2")
  else if decide (path = "x.env") then Ok (Ok "X=new")
  else if decide (path = "bad.env") then Ok (Ok "K")
  else if decide (path = "nul.env")
       then Ok (Ok (String "X" (String "=" (String nul ""))))
  else Err (PathError path).

Definition world : World :=
  Build_World map_to_list_order path_Join os_Open parseBytes.

Definition readFile := readFile world.
Definition loadFile := loadFile world.
Definition LoadFrom := LoadFrom world.
Definition OverloadFrom := OverloadFrom world.
Definition ReadFrom := ReadFrom world.

End Example.

(** ** Exec

    [exec.Command] leaves [Env] unset, so the command is started with the
    environment of the process as it is then; what [command.Run] returns
    is the business of the system, taken here as [run]. *)
Definition Invocation : Type := (string * list string * list string)%type.

Definition Exec (w : World)
    (run : string -> list string -> list string -> option error)
    (filenames : list string) (cmd : string) (cmdArgs : list string)
    (strict overload : bool) (e : os.Env)
  : os.Env * option Invocation * option error :=
  let op := if overload then Overload w else Load w in
  match op strict filenames e with
  | (e', Some err) => (e', None, Some err)
  | (e', None) =>
      (e', Some (cmd, cmdArgs, os.Environ e'), run cmd cmdArgs (os.Environ e'))
  end.

(** ** Notions for the properties below *)

(** The special characters of a value, and how many of them it holds. *)
Definition special (c : ascii) : bool :=
  bool_decide (c ∈ strings.runes doubleQuoteSpecialChars).

Fixpoint count_special (v : string) : nat :=
  match v with
  | "" => 0%nat
  | String c v' => ((if special c then 1 else 0) + count_special v')%nat
  end.

(** Reading the escapes back: a backslash and the character after it
    stand for one character. *)
Fixpoint unescape (s : string) : string :=
  match s with
  | "" => ""
  | String c s' =>
      if decide (c = backslash) then
        match s' with
        | "" => String c ""
        | String x s'' =>
            String (if decide (x = "n"%char) then newline
                    else if decide (x = "r"%char) then carriage_return
                    else x)
                   (unescape s'')
        end
      else String c (unescape s')
  end.

(** A string without its last character. *)
Fixpoint drop_last (s : string) : string :=
  match s with
  | "" => ""
  | String _ "" => ""
  | String c s' => String c (drop_last s')
  end.

(** Reading a line of [Marshal] back: the key before the first equals
    sign, and after it the text between the quotes with its escapes read
    back, or the unquoted text as it stands. *)
Definition unline (line : string) : string * string :=
  match os.cut line with
  | Some (k, String c rest) =>
      if decide (c = dquote) then (k, unescape (drop_last rest))
      else (k, String c rest)
  | Some (k, "") => (k, "")
  | None => ("", "")
  end.

Definition read_back (text : string) : gmap string string :=
  if decide (text = "") then ∅
  else list_to_map (unline <$> strings.Split text newline).

(** A key that [Marshal] can write on a line of its own and that ends at
    the first equals sign of the line. *)
Definition plain_key (k : string) : bool :=
  negb (strings.contains equals_sign k) && negb (strings.contains newline k).

(** A value that [Marshal] writes without changing it: one that [Atoi]
    rejects, or the very text that [%d] prints for the number read. *)
Definition faithful_value (v : string) : bool :=
  match strconv.Atoi v with
  | Some d => bool_decide (fmt.d d = v)
  | None => true
  end.

Definition keeps_text (m : gmap string string) : Prop :=
  map_Forall (fun k v => plain_key k = true /\ faithful_value v = true) m.

(** The mappings of the files that [ReadFrom] can read, in the order of
    the list, and their union where a later mapping takes precedence. *)
Definition read_maps (w : World) (dir : string) (e : os.Env)
    (filenames : list string) : list (gmap string string) :=
  omap (fun filename =>
          match readFile w dir filename e with
          | (m, None) => Some (default ∅ m)
          | (_, Some _) => None
          end)
       filenames.

Definition merged (ms : list (gmap string string)) : gmap string string :=
  fold_left (fun acc m => m ∪ acc) ms ∅.


(** The same world with another order for its [range] loops. *)
Definition with_order (o : MapOrder) (w : World) : World :=
  {| order := o;
     path_Join := path_Join w;
     os_Open := os_Open w;
     parseBytes := parseBytes w |}.

(** * Properties *)

(** ** Strings *)

Lemma app_nil_l (s : string) : "" +:+ s = s.
Proof. reflexivity. Qed.

Lemma app_cons (c : ascii) (s t : string) :
  String c s +:+ t = String c (s +:+ t).
Proof. reflexivity. Qed.

Lemma app_nil_r (s : string) : s +:+ "" = s.
Proof. induction s as [|c s IH]; [reflexivity|]. by rewrite app_cons, IH. Qed.

Lemma app_assoc (s t u : string) : (s +:+ t) +:+ u = s +:+ (t +:+ u).
Proof.
  induction s as [|c s IH]; [reflexivity|]. by rewrite !app_cons, IH.
Qed.

(** ** The escaping: one pass per special character is one pass in all *)

Lemma subst_chars_app f s t :
  subst_chars f (s +:+ t) = subst_chars f s +:+ subst_chars f t.
Proof.
  induction s as [|c s IH]; [reflexivity|].
  rewrite app_cons. simpl. by rewrite IH, app_assoc.
Qed.

Lemma subst_chars_compose f g s :
  subst_chars g (subst_chars f s) = subst_chars (fun c => subst_chars g (f c)) s.
Proof.
  induction s as [|c s IH]; [reflexivity|].
  simpl. by rewrite subst_chars_app, IH.
Qed.

Lemma subst_chars_ext f g s :
  (forall c, f c = g c) -> subst_chars f s = subst_chars g s.
Proof. intros Hfg. induction s as [|c s IH]; simpl; [done|]. by rewrite Hfg, IH. Qed.

Lemma Replace_subst_chars s old new :
  strings.Replace s old new =
  subst_chars (fun c => if decide (c = old) then new else String c "") s.
Proof.
  induction s as [|c s IH]; [reflexivity|].
  simpl. rewrite IH. by destruct (decide (c = old)).
Qed.

Lemma escape_single_pass_subst_chars v :
  escape_single_pass v = subst_chars escape_char v.
Proof. induction v as [|c v IH]; simpl; [done|]. by rewrite IH. Qed.

(** What the seven replacements of [doubleQuoteEscape] do to a string of
    one character. *)
Lemma doubleQuoteEscape_char (c : ascii) :
  doubleQuoteEscape (String c "") = escape_char c.
Proof. by destruct c as [[] [] [] [] [] [] [] []]. Qed.

(** A run of replacements, one character after the other, acts on each
    character of the line by itself. *)
Lemma Replace_fold_subst_chars (new : ascii -> string) (cs : list ascii)
    (line : string) :
  fold_left (fun line c => strings.Replace line c (new c)) cs line =
  subst_chars
    (fun x => fold_left (fun line c => strings.Replace line c (new c)) cs
                (String x ""))
    line.
Proof.
  revert line. induction cs as [|c cs IH]; intros line.
  - induction line as [|x line IHl]; [done|]. simpl in *. by rewrite <- IHl.
  - cbn [fold_left]. rewrite IH, Replace_subst_chars, subst_chars_compose.
    apply subst_chars_ext. intros x.
    rewrite (IH (strings.Replace _ _ _)), Replace_subst_chars.
    simpl. by rewrite app_nil_r.
Qed.

Lemma doubleQuoteEscape_subst_chars (line : string) :
  doubleQuoteEscape line =
  subst_chars (fun c => doubleQuoteEscape (String c "")) line.
Proof. apply Replace_fold_subst_chars. Qed.

(** C3. For every string, [doubleQuoteEscape] writes backslash and [n] for
    a newline, backslash and [r] for a carriage return, a backslash before
    each backslash, double quote, exclamation mark, dollar and backtick,
    and copies every other character; no backslash it has inserted is
    escaped again: the result is the single pass from left to right over
    the original string. *)
Theorem doubleQuoteEscape_single_pass (v : string) :
  doubleQuoteEscape v = escape_single_pass v.
Proof.
  rewrite doubleQuoteEscape_subst_chars, escape_single_pass_subst_chars.
  apply subst_chars_ext, doubleQuoteEscape_char.
Qed.

(** ** Marshal *)

Lemma last_app (s t : string) :
  t ≠ "" -> strings.last (s +:+ t) = strings.last t.
Proof.
  intros Ht. induction s as [|c s IH]; [done|].
  rewrite app_cons. simpl. rewrite IH.
  destruct (s +:+ t) eqn:Hst; [|done].
  destruct s; [by rewrite app_nil_l in Hst | by rewrite app_cons in Hst].
Qed.

Lemma last_contains (s : string) (c : ascii) :
  strings.last s = Some c -> strings.contains c s = true.
Proof.
  induction s as [|x s IH]; [done|]. simpl.
  destruct s as [|y s].
  - intros [= ->]. by rewrite bool_decide_true.
  - intros H. rewrite (IH H). apply orb_true_r.
Qed.

Lemma last_is_Some (s : string) : s ≠ "" -> is_Some (strings.last s).
Proof.
  induction s as [|x s IH]; [done|]. intros _. simpl.
  destruct s as [|y s]; [by eexists|]. by apply IH.
Qed.

(** A string that is not empty and holds no newline ends in a character
    that is not the newline. *)
Lemma last_not_newline (s : string) :
  s ≠ "" -> strings.contains newline s = false ->
  exists c, strings.last s = Some c /\ c ≠ newline.
Proof.
  intros Hs Hn. destruct (last_is_Some s Hs) as [c Hc].
  exists c. split; [done|]. intros ->.
  apply last_contains in Hc. congruence.
Qed.

Lemma string_of_uint_no_newline (u : Decimal.uint) :
  strings.contains newline (NilEmpty.string_of_uint u) = false.
Proof. induction u; simpl; done. Qed.

Lemma fmt_d_no_newline (n : Z) : strings.contains newline (fmt.d n) = false.
Proof.
  unfold fmt.d, NilZero.string_of_int, NilZero.string_of_uint.
  destruct (Z.to_int n) as [u|u]; destruct u; try done;
    cbn [strings.contains]; rewrite ?bool_decide_false by done;
    apply (string_of_uint_no_newline (_ _)).
Qed.

Lemma fmt_d_not_empty (n : Z) : fmt.d n ≠ "".
Proof.
  unfold fmt.d, NilZero.string_of_int, NilZero.string_of_uint.
  destruct (Z.to_int n) as [u|u]; destruct u; done.
Qed.

(** Every line of [Marshal] ends in a digit or in the closing quote. *)
Lemma Marshal_line_last (kv : string * string) :
  exists c, strings.last (Marshal_line kv) = Some c /\ c ≠ newline.
Proof.
  destruct kv as [k v]. unfold Marshal_line.
  destruct (strconv.Atoi v) as [d|].
  - rewrite last_app by done.
    destruct (last_not_newline (fmt.d d)) as (c & Hc & Hne);
      [apply fmt_d_not_empty | apply fmt_d_no_newline |].
    exists c. split; [|done]. simpl.
    destruct (fmt.d d) eqn:Hd; [by destruct (fmt_d_not_empty d)|done].
  - exists dquote. split; [|done].
    rewrite last_app by done.
    change (String equals_sign ?s) with (String equals_sign "" +:+ s).
    rewrite last_app by done.
    change (String dquote (?s +:+ ?t)) with (String dquote s +:+ t).
    by rewrite last_app.
Qed.

Lemma Join_last (lines : list string) :
  Forall (fun l => exists c, strings.last l = Some c /\ c ≠ newline) lines ->
  lines ≠ [] ->
  exists c,
    strings.last (strings.Join lines (String newline "")) = Some c /\
    c ≠ newline.
Proof.
  induction 1 as [|l lines Hl Hls IH]; [done|]. intros _.
  destruct lines as [|l2 lines]; [done|].
  destruct IH as (c & Hc & Hne); [done|].
  exists c. split; [|done].
  change (strings.Join (l :: l2 :: lines) ?sep)
    with (l +:+ sep +:+ strings.Join (l2 :: lines) sep).
  rewrite !last_app; [done| |].
  - intros Heq. by rewrite Heq in Hc.
  - intros Heq. destruct (strings.Join (l2 :: lines) _); done.
Qed.

Lemma Strings_sorted (x : list string) : Sorted String.le (sort.Strings x).
Proof. apply (Sorted_merge_sort String.le). Qed.

Lemma Strings_Permutation (x : list string) : sort.Strings x ≡ₚ x.
Proof. apply (merge_sort_Permutation String.le). Qed.

(** Sorting forgets the order the lines came in. *)
Lemma Strings_order_irrelevant (x y : list string) :
  x ≡ₚ y -> sort.Strings x = sort.Strings y.
Proof.
  intros Hxy. apply (Sorted_unique String.le); try apply Strings_sorted.
  by rewrite !Strings_Permutation.
Qed.

Lemma Marshal_order_irrelevant (w w' : World)
    (envMap : gmap string string) :
  Marshal w' envMap = Marshal w envMap.
Proof.
  unfold Marshal. do 2 f_equal. apply Strings_order_irrelevant.
  by rewrite (range_perm (order w)), (range_perm (order w')).
Qed.

(** [strings.Join] with a newline, against the lines each followed by a
    newline. *)
Lemma Join_terminated (lines : list string) :
  lines ≠ [] ->
  strings.Join lines (String newline "") +:+ String newline ""
  = each_line_terminated lines.
Proof.
  induction lines as [|l lines IH]; [done|]. intros _.
  destruct lines as [|l2 lines]; [done|].
  change (strings.Join (l :: l2 :: lines) ?sep)
    with (l +:+ sep +:+ strings.Join (l2 :: lines) sep).
  rewrite !app_assoc, app_cons, app_nil_l, IH by done.
  done.
Qed.

(** C4. For every mapping and every order in which the map is visited,
    [Marshal] returns no error and a text made of the lines of the
    entries, sorted as whole lines in increasing byte order, with one
    newline between each line and the next and none after the last: the
    text followed by a newline is every line, in that order, followed by a
    newline, and the text of the empty mapping is empty.  It does not end
    in a newline; and it is the same text whatever the order of the visit,
    so that encoding a mapping twice gives identical output. *)
Theorem Marshal_sorted_joined_deterministic
    (w : World) (envMap : gmap string string) :
  (exists lines,
      lines ≡ₚ Marshal_line <$> map_to_list envMap /\
      Sorted String.le lines /\
      (Marshal w envMap).2 = None /\
      (lines = [] -> (Marshal w envMap).1 = "") /\
      (lines ≠ [] ->
       (Marshal w envMap).1 +:+ String newline ""
       = each_line_terminated lines)) /\
  strings.last (Marshal w envMap).1 ≠ Some newline /\
  (forall w' : World, Marshal w' envMap = Marshal w envMap).
Proof.
  split; [|split].
  - exists (sort.Strings (Marshal_line <$> order w envMap)).
    split; [by rewrite Strings_Permutation, (range_perm (order w))|].
    split; [apply Strings_sorted|]. split; [done|]. unfold Marshal. simpl.
    split; [by intros ->|apply Join_terminated].
  - unfold Marshal. simpl.
    destruct (decide (sort.Strings (Marshal_line <$> order w envMap) = []))
      as [->|Hne]; [done|].
    destruct (Join_last (sort.Strings (Marshal_line <$> order w envMap)))
      as (c & Hc & Hcn); [|done|].
    + rewrite Strings_Permutation. apply Forall_fmap, Forall_true.
      intros kv. apply Marshal_line_last.
    + rewrite Hc. by intros [= ->].
  - intros w'. apply Marshal_order_irrelevant.
Qed.

(** Three entries give three lines, in the order of the lines. *)
Example Marshal_three_lines (w : World) :
  Marshal w (<["B" := "y"]> (<["C" := "7"]> {["A" := "x"]})) =
  ("A=" +:+ String dquote ("x" +:+ String dquote (String newline
     ("B=" +:+ String dquote ("y" +:+ String dquote (String newline
        "C=7"))))), None).
Proof. by rewrite (Marshal_order_irrelevant Example.world). Qed.

(** The order is that of the whole lines, not of the keys: the key [A]
    comes before the key [A1], but the line of [A1] comes first, since the
    digit is below the equals sign. *)
Example Marshal_sorts_lines (w : World) :
  Marshal w (<["A" := "x"]> {["A1" := "y"]}) =
  ("A1=" +:+ String dquote ("y" +:+ String dquote (String newline
     ("A=" +:+ String dquote ("x" +:+ String dquote "")))), None).
Proof. by rewrite (Marshal_order_irrelevant Example.world). Qed.

Lemma Marshal_leading_zero_unquoted_aux (w : World) :
  Marshal w {["N" := "042"]} = ("N=42", None).
Proof. by rewrite (Marshal_order_irrelevant Example.world). Qed.

(** C2. The line of an entry is unquoted whenever [strconv.Atoi] accepts
    the value, and then shows the number that was read, not the text: for
    the mapping that gives [N] the value [042], [Marshal] writes [N=42],
    where the round-trip rule of the claim asks for the quoted [042]. *)
Theorem Marshal_leading_zero_unquoted (w : World) :
  Marshal w {["N" := "042"]} = ("N=42", None).
Proof. apply Marshal_leading_zero_unquoted_aux. Qed.

Lemma Marshal_canonical_integer (w : World) :
  Marshal w {["N" := "42"]} = ("N=42", None).
Proof. by rewrite (Marshal_order_irrelevant Example.world). Qed.

(** The same happens for a sign that the formatting drops. *)
Example Marshal_plus_sign (w : World) :
  Marshal w {["N" := "+5"]} = ("N=5", None).
Proof. by rewrite (Marshal_order_irrelevant Example.world). Qed.

(** A value that [Atoi] rejects is quoted and escaped. *)
Example Marshal_quoted (w : World) :
  Marshal w {["N" := "4 2"]} =
  ("N=" +:+ String dquote ("4 2" +:+ String dquote ""), None).
Proof. by rewrite (Marshal_order_irrelevant Example.world). Qed.

(** C1. The round trip does not hold for every mapping: [Marshal] writes
    the same text, [N=42], for the mapping that gives [N] the value [042]
    and for the one that gives it [42]; so whatever the decoder is, and
    whatever the environment it runs in, decoding the encoder's output
    does not give back both mappings. *)
Theorem round_trip_loses_leading_zero (w : World) (e : os.Env) :
  ~ (Unmarshal w e (Marshal w {["N" := "042"]}).1
       = (Some ({["N" := "042"]} : gmap string string), None) /\
     Unmarshal w e (Marshal w {["N" := "42"]}).1
       = (Some ({["N" := "42"]} : gmap string string), None)).
Proof.
  rewrite Marshal_leading_zero_unquoted_aux, Marshal_canonical_integer.
  simpl. intros [H1 H2]. rewrite H1 in H2.
  assert (({["N" := "042"]} : gmap string string) !! "N"
          = ({["N" := "42"]} : gmap string string) !! "N") as Hl
    by congruence.
  by rewrite !lookup_singleton_eq in Hl.
Qed.

(** ** The process environment *)

Lemma Split_head (s : string) :
  default "" (strings.Split s equals_sign !! 0%nat) = os.entry_key s.
Proof.
  unfold os.entry_key. induction s as [|c s IH]; [done|]. simpl.
  destruct (decide (c = equals_sign)); [done|].
  destruct (strings.Split s equals_sign) as [|w ws] eqn:Hs;
    destruct (os.cut s) as [[k v]|]; simpl in *; congruence.
Qed.

Lemma cut_no_equals (s k v : string) :
  os.cut s = Some (k, v) -> strings.contains equals_sign k = false.
Proof.
  revert k v. induction s as [|c s IH]; intros k v; [done|]. simpl.
  destruct (decide (c = equals_sign)); [by intros [= <- _]|].
  destruct (os.cut s) as [[k' v']|]; [|done].
  intros [= <- _]. simpl. rewrite (IH k' v' eq_refl).
  by rewrite bool_decide_false.
Qed.

Lemma cut_entry (key value : string) :
  strings.contains equals_sign key = false ->
  os.cut (key +:+ String equals_sign value) = Some (key, value).
Proof.
  induction key as [|c key IH]; intros Hc.
  - reflexivity.
  - rewrite app_cons. simpl in *. apply orb_false_elim in Hc as [Hc1 Hc2].
    apply bool_decide_eq_false in Hc1.
    by rewrite decide_False, (IH Hc2).
Qed.

Lemma has_key_entry (key key' value : string) :
  strings.contains equals_sign key = false ->
  os.has_key key' (key +:+ String equals_sign value) = bool_decide (key = key').
Proof. intros Hc. unfold os.has_key. by rewrite cut_entry. Qed.

Lemma has_key_unique (key key' s : string) :
  os.has_key key s = true -> key ≠ key' -> os.has_key key' s = false.
Proof.
  unfold os.has_key. destruct (os.cut s) as [[k v]|]; [|done].
  intros ->%bool_decide_eq_true Hne. by apply bool_decide_eq_false.
Qed.

Lemma refuses_false (key value : string) :
  os.refuses key value = false ->
  key ≠ "" /\ strings.contains equals_sign key = false.
Proof.
  unfold os.refuses. intros H.
  repeat (apply orb_false_elim in H as [H ?]).
  by apply bool_decide_eq_false in H.
Qed.

Lemma find_store_eq (key value : string) (e : os.Env) :
  strings.contains equals_sign key = false ->
  List.find (os.has_key key) (os.store key (key +:+ String equals_sign value) e)
  = Some (key +:+ String equals_sign value).
Proof.
  intros Hc. induction e as [|s e IH]; simpl.
  - by rewrite has_key_entry, bool_decide_true.
  - destruct (os.has_key key s) eqn:Hs; simpl.
    + by rewrite has_key_entry, bool_decide_true.
    + by rewrite Hs.
Qed.

Lemma find_store_ne (key key' value : string) (e : os.Env) :
  strings.contains equals_sign key = false -> key ≠ key' ->
  List.find (os.has_key key') (os.store key (key +:+ String equals_sign value) e)
  = List.find (os.has_key key') e.
Proof.
  intros Hc Hne. induction e as [|s e IH]; simpl.
  - by rewrite has_key_entry, bool_decide_false.
  - destruct (os.has_key key s) eqn:Hs; simpl.
    + by rewrite has_key_entry, bool_decide_false, (has_key_unique key key' s).
    + by rewrite IH.
Qed.

(** What a variable holds after [os.Setenv]: the new value for the key that
    was set, when the call is not refused, and what it held before in every
    other case. *)
Lemma LookupEnv_Setenv (k key value : string) (e : os.Env) :
  os.LookupEnv k (os.Setenv key value e).1 =
  if negb (os.refuses key value) && bool_decide (k = key) then Some value
  else os.LookupEnv k e.
Proof.
  unfold os.Setenv. destruct (os.refuses key value) eqn:Hr; [done|].
  destruct (refuses_false _ _ Hr) as [Hk Hc]. simpl.
  unfold os.LookupEnv. case_bool_decide as Heq.
  - subst k. rewrite decide_False by done.
    by rewrite find_store_eq, cut_entry.
  - destruct (decide (k = "")); [done|].
    rewrite find_store_ne; [done..|]. by intros ->.
Qed.

Lemma Setenv_refused (key value : string) (e : os.Env) :
  os.refuses key value = true -> os.Setenv key value e = (e, Some EINVAL).
Proof. unfold os.Setenv. by intros ->. Qed.

(** A variable that has a value is in the listing, under its own name. *)
Lemma LookupEnv_listed (key value : string) (e : os.Env) :
  os.LookupEnv key e = Some value ->
  exists line, line ∈ os.Environ e /\ os.entry_key line = key.
Proof.
  unfold os.LookupEnv. destruct (decide (key = "")); [done|].
  destruct (List.find (os.has_key key) e) as [s|] eqn:Hf; [|done].
  intros _. apply find_some in Hf as [Hin Hk].
  exists s. unfold os.has_key, os.entry_key in *.
  destruct (os.cut s) as [[k v]|] eqn:Hc; [|done].
  apply bool_decide_eq_true in Hk. split; [|done].
  apply list_elem_of_filter. split; [by intros ->|].
  by apply list_elem_of_In.
Qed.

(** ** loadFile *)

Lemma index_bool_insert (m : gmap string bool) (k key : string) :
  index_bool (<[k := true]> m) key = true <->
  k = key \/ index_bool m key = true.
Proof.
  unfold index_bool. destruct (decide (k = key)) as [->|Hne].
  - rewrite lookup_insert_eq. split; [by left|done].
  - rewrite lookup_insert_ne by done. split; [by right|by intros [?|?]].
Qed.

Lemma currentEnv_of_fold (rawEnv : list string) (acc : gmap string bool)
    (key : string) :
  index_bool
    (fold_left
       (fun currentEnv rawEnvLine =>
          <[default "" (strings.Split rawEnvLine equals_sign !! 0%nat) := true]>
            currentEnv)
       rawEnv acc) key = true <->
  index_bool acc key = true \/
  exists line, line ∈ rawEnv /\ os.entry_key line = key.
Proof.
  revert acc. induction rawEnv as [|line rawEnv IH]; intros acc; simpl.
  - split; [by left|]. intros [?|(? & []%not_elem_of_nil & _)]; done.
  - rewrite IH, index_bool_insert, Split_head. split.
    + intros [[?|?]|(l & ? & ?)]; [right; exists line|by left|right; exists l];
        split; try done; by constructor.
    + intros [?|(l & [->|?]%elem_of_cons & ?)];
        [by left; right|by left; left|right; by exists l].
Qed.

(** The presence test of [loadFile]: a key is marked exactly when some
    entry of the listing has it before its first equals sign. *)
Lemma currentEnv_of_spec (rawEnv : list string) (key : string) :
  index_bool (currentEnv_of rawEnv) key = true <->
  exists line, line ∈ rawEnv /\ os.entry_key line = key.
Proof.
  unfold currentEnv_of. rewrite currentEnv_of_fold.
  unfold index_bool. rewrite lookup_empty.
  split; [by intros [?|?]|by right].
Qed.

Lemma currentEnv_of_LookupEnv (key value : string) (e : os.Env) :
  os.LookupEnv key e = Some value ->
  index_bool (currentEnv_of (os.Environ e)) key = true.
Proof. intros H. apply currentEnv_of_spec. by eapply LookupEnv_listed. Qed.

(** A key that the loop does not visit keeps its value. *)
Lemma setenv_loop_other (currentEnv : gmap string bool) (overload : bool)
    (entries : list (string * string)) (e : os.Env) (k : string) :
  k ∉ entries.*1 ->
  os.LookupEnv k (setenv_loop currentEnv overload entries e) = os.LookupEnv k e.
Proof.
  revert e. induction entries as [|[key value] entries IH]; intros e Hk; [done|].
  apply not_elem_of_cons in Hk as [Hne Hk]. simpl in *.
  rewrite IH by done.
  destruct (negb (index_bool currentEnv key) || overload); [|done].
  rewrite LookupEnv_Setenv, (bool_decide_false (k = key)) by done.
  by rewrite andb_false_r.
Qed.

(** Without [overload], a key that is marked present keeps its value. *)
Lemma setenv_loop_present (currentEnv : gmap string bool)
    (entries : list (string * string)) (e : os.Env) (k : string) :
  index_bool currentEnv k = true ->
  os.LookupEnv k (setenv_loop currentEnv false entries e) = os.LookupEnv k e.
Proof.
  intros Hk. revert e.
  induction entries as [|[key value] entries IH]; intros e; [done|].
  simpl. rewrite IH, orb_false_r.
  destruct (index_bool currentEnv key) eqn:Hkey; [done|]. simpl.
  rewrite LookupEnv_Setenv, (bool_decide_false (k = key)) by congruence.
  by rewrite andb_false_r.
Qed.

(** An entry that the loop sets holds afterwards, when [os.Setenv] takes
    it; when it does not, the key keeps what it held. *)
Lemma setenv_loop_set (currentEnv : gmap string bool) (overload : bool)
    (entries : list (string * string)) (e : os.Env) (k v : string) :
  NoDup entries.*1 -> (k, v) ∈ entries ->
  negb (index_bool currentEnv k) || overload = true ->
  os.LookupEnv k (setenv_loop currentEnv overload entries e) =
  if os.refuses k v then os.LookupEnv k e else Some v.
Proof.
  intros Hnd Hin Hset. revert e.
  induction entries as [|[key value] entries IH]; intros e.
  { by apply not_elem_of_nil in Hin. }
  apply NoDup_cons in Hnd as [Hfresh Hnd]. simpl in *.
  apply elem_of_cons in Hin as [[= <- <-]|Hin].
  - rewrite setenv_loop_other by done. rewrite Hset, LookupEnv_Setenv.
    rewrite bool_decide_true by done. by destruct (os.refuses k v).
  - assert (k ≠ key) as Hne.
    { intros ->. apply Hfresh. by apply (list_elem_of_fmap_2 fst) in Hin. }
    rewrite IH by done. destruct (os.refuses k v); [|done].
    destruct (negb (index_bool currentEnv key) || overload); [|done].
    rewrite LookupEnv_Setenv, (bool_decide_false (k = key)) by done.
    by rewrite andb_false_r.
Qed.

Lemma order_NoDup (o : MapOrder) (m : gmap string string) :
  NoDup (o m).*1.
Proof. rewrite (range_perm o). apply NoDup_fst_map_to_list. Qed.

Lemma order_elem_of (o : MapOrder) (m : gmap string string)
    (k v : string) :
  (k, v) ∈ o m <-> m !! k = Some v.
Proof. rewrite (range_perm o). apply elem_of_map_to_list. Qed.

Lemma order_not_elem_of (o : MapOrder) (m : gmap string string)
    (k : string) :
  m !! k = None -> k ∉ (o m).*1.
Proof.
  intros Hk [[k' v] [-> Hin]]%list_elem_of_fmap.
  apply order_elem_of in Hin. simpl in *. congruence.
Qed.

Section loading.

Variable w : World.

Lemma loadFile_error dir filename overload e err :
  (readFile w dir filename e).2 = Some err ->
  loadFile w dir filename overload e = (e, Some err).
Proof.
  unfold loadFile. destruct (readFile w dir filename e) as [m [err'|]]; simpl;
    congruence.
Qed.

Lemma loadFile_ok dir filename overload e envMap :
  readFile w dir filename e = (envMap, None) ->
  loadFile w dir filename overload e =
  (setenv_loop (currentEnv_of (os.Environ e)) overload
     (order w (default ∅ envMap)) e, None).
Proof. unfold loadFile. by intros ->. Qed.

Lemma loadFile_snd dir filename overload e :
  (loadFile w dir filename overload e).2 = (readFile w dir filename e).2.
Proof.
  unfold loadFile. by destruct (readFile w dir filename e) as [m [err'|]].
Qed.

(** [loadFile] without [overload] leaves a variable that has a value as it
    is. *)
Lemma loadFile_keeps dir filename e k old :
  os.LookupEnv k e = Some old ->
  os.LookupEnv k (loadFile w dir filename false e).1 = Some old.
Proof.
  intros Hk. unfold loadFile.
  destruct (readFile w dir filename e) as [m [err'|]]; [done|]. simpl.
  rewrite setenv_loop_present; [done|]. by eapply currentEnv_of_LookupEnv.
Qed.

(** [loadFile] sets the entry of the file when it overloads, or when the
    key is not marked present. *)
Lemma loadFile_sets dir filename overload e m k v :
  readFile w dir filename e = (Some m, None) -> m !! k = Some v ->
  negb (index_bool (currentEnv_of (os.Environ e)) k) || overload = true ->
  os.LookupEnv k (loadFile w dir filename overload e).1 =
  if os.refuses k v then os.LookupEnv k e else Some v.
Proof.
  intros Hr Hm Hset. rewrite (loadFile_ok _ _ _ _ _ Hr). simpl.
  apply setenv_loop_set; [apply order_NoDup|by apply order_elem_of|done].
Qed.

Lemma loadFrom_loop_app overload dir strict pre post loaded e :
  loadFrom_loop w overload dir strict (pre ++ post) loaded e =
  match loadFrom_loop w overload dir strict pre loaded e with
  | (e1, loaded1, None) => loadFrom_loop w overload dir strict post loaded1 e1
  | stopped => stopped
  end.
Proof.
  revert loaded e. induction pre as [|f pre IH]; intros loaded e; [done|].
  simpl. destruct (loadFile w dir f overload e) as [e' [err|]].
  - destruct strict; [done|apply IH].
  - apply IH.
Qed.

(** A strict loop that reaches a file which cannot be read stops there,
    with the environment the earlier files have left. *)
Lemma loadFrom_loop_abort overload dir pre f post loaded e e1 loaded1 err :
  loadFrom_loop w overload dir true pre loaded e = (e1, loaded1, None) ->
  (readFile w dir f e1).2 = Some err ->
  loadFrom_loop w overload dir true (pre ++ f :: post) loaded e =
  (e1, loaded1, Some err).
Proof.
  intros Hpre Hf. rewrite loadFrom_loop_app, Hpre. simpl.
  by rewrite (loadFile_error _ _ _ _ _ Hf).
Qed.

Lemma loadFrom_loop_keeps dir strict filenames loaded e k old :
  os.LookupEnv k e = Some old ->
  os.LookupEnv k (loadFrom_loop w false dir strict filenames loaded e).1.1
  = Some old.
Proof.
  revert loaded e. induction filenames as [|f rest IH]; intros loaded e Hk;
    [done|].
  simpl. pose proof (loadFile_keeps dir f e k old Hk) as Hf.
  destruct (loadFile w dir f false e) as [e' [err|]]; simpl in *.
  - destruct strict; [done|by apply IH].
  - by apply IH.
Qed.

Lemma loadFrom_loop_loaded overload dir strict filenames e :
  (loadFrom_loop w overload dir strict filenames true e).1.2 = true.
Proof.
  revert e. induction filenames as [|f rest IH]; intros e; [done|].
  simpl. destruct (loadFile w dir f overload e) as [e' [err|]]; [|apply IH].
  destruct strict; [done|apply IH].
Qed.

(** Without [strict] the loop never returns early, and [loaded] ends up
    set exactly when one of the files can be read. *)
Lemma loadFrom_loop_lenient overload dir filenames loaded e :
  (loadFrom_loop w overload dir false filenames loaded e).2 = None /\
  (loadFrom_loop w overload dir false filenames loaded e).1.2 =
  loaded || existsb (readable w dir e) filenames.
Proof.
  revert loaded. induction filenames as [|f rest IH]; intros loaded.
  { by rewrite orb_false_r. }
  simpl. unfold readable at 1.
  destruct (readFile w dir f e) as [m [err|]] eqn:Hr.
  - rewrite (loadFile_error dir f overload e err) by by rewrite Hr.
    by rewrite bool_decide_false.
  - rewrite (loadFile_ok _ _ _ _ _ Hr), bool_decide_true by done.
    rewrite orb_true_r. split; [|apply loadFrom_loop_loaded].
    clear. generalize (setenv_loop (currentEnv_of (os.Environ e)) overload
                         (order w (default ∅ m)) e).
    induction rest as [|g rest IH]; intros e'; [done|]. simpl.
    by destruct (loadFile w dir g overload e') as [e'' [err|]].
Qed.

(** ** ReadFrom *)

Lemma merge_into_union (envMap : gmap string string)
    (entries : list (string * string)) :
  NoDup entries.*1 -> merge_into envMap entries = list_to_map entries ∪ envMap.
Proof.
  revert envMap.
  induction entries as [|[k v] entries IH]; intros envMap Hnd; simpl.
  { by rewrite (left_id_L ∅ (∪)). }
  apply NoDup_cons in Hnd as [Hk Hnd].
  change (merge_into (<[k := v]> envMap) entries =
          <[k := v]> (list_to_map entries) ∪ envMap).
  rewrite IH by done. rewrite <- insert_union_l.
  symmetry. apply insert_union_r. by apply not_elem_of_list_to_map_1.
Qed.

(** Merging a file's mapping into [envMap] lets the file's entries win. *)
Lemma merge_into_order (envMap m : gmap string string) :
  merge_into envMap (order w m) = m ∪ envMap.
Proof.
  rewrite merge_into_union by apply order_NoDup. f_equal.
  rewrite <- (list_to_map_to_list m) at 2.
  apply list_to_map_proper; [apply order_NoDup|apply (range_perm (order w))].
Qed.

Lemma readFrom_loop_app dir strict pre post envMap loaded e :
  readFrom_loop w dir strict (pre ++ post) envMap loaded e =
  match readFrom_loop w dir strict pre envMap loaded e with
  | (envMap1, loaded1, None) =>
      readFrom_loop w dir strict post envMap1 loaded1 e
  | stopped => stopped
  end.
Proof.
  revert envMap loaded.
  induction pre as [|f pre IH]; intros envMap loaded; [done|].
  simpl. destruct (readFile w dir f e) as [m [err|]].
  - destruct strict; [done|apply IH].
  - apply IH.
Qed.

Lemma readFrom_loop_abort dir pre f post envMap loaded e envMap1 loaded1 err :
  readFrom_loop w dir true pre envMap loaded e = (envMap1, loaded1, None) ->
  (readFile w dir f e).2 = Some err ->
  readFrom_loop w dir true (pre ++ f :: post) envMap loaded e =
  (envMap1, loaded1, Some err).
Proof.
  intros Hpre Hf. rewrite readFrom_loop_app, Hpre. simpl.
  destruct (readFile w dir f e) as [m [err'|]]; simpl in *; congruence.
Qed.

Lemma readFrom_loop_loaded dir strict filenames envMap e :
  (readFrom_loop w dir strict filenames envMap true e).1.2 = true.
Proof.
  revert envMap. induction filenames as [|f rest IH]; intros envMap; [done|].
  simpl. destruct (readFile w dir f e) as [m [err|]]; [|apply IH].
  destruct strict; [done|apply IH].
Qed.

Lemma readFrom_loop_lenient dir filenames envMap loaded e :
  (readFrom_loop w dir false filenames envMap loaded e).2 = None /\
  (readFrom_loop w dir false filenames envMap loaded e).1.2 =
  loaded || existsb (readable w dir e) filenames.
Proof.
  revert envMap loaded.
  induction filenames as [|f rest IH]; intros envMap loaded.
  { by rewrite orb_false_r. }
  simpl. unfold readable at 1.
  destruct (readFile w dir f e) as [m [err|]] eqn:Hr.
  - rewrite bool_decide_false by done. apply IH.
  - rewrite bool_decide_true, orb_true_r by done.
    split; [|apply readFrom_loop_loaded].
    generalize (merge_into envMap (order w (default ∅ m))). clear.
    induction rest as [|g rest IH]; intros envMap; [done|]. simpl.
    by destruct (readFile w dir g e) as [m' [err|]].
Qed.

(** The loop only adds keys to [envMap]. *)
Lemma readFrom_loop_grows dir strict filenames envMap loaded e :
  dom envMap ⊆ dom (readFrom_loop w dir strict filenames envMap loaded e).1.1.
Proof.
  revert envMap loaded.
  induction filenames as [|f rest IH]; intros envMap loaded; [done|].
  simpl. destruct (readFile w dir f e) as [m [err|]].
  - destruct strict; [done|apply IH].
  - etrans; [|apply IH]. rewrite merge_into_order, dom_union. set_solver.
Qed.

(** The entries of the last file, when it has been read, are all in the
    mapping that the loop returns. *)
Lemma readFrom_loop_last dir strict pre g envMap0 loaded e envMap loaded1 mg :
  readFrom_loop w dir strict (pre ++ [g]) envMap0 loaded e
    = (envMap, loaded1, None) ->
  readFile w dir g e = (Some mg, None) ->
  mg ⊆ envMap.
Proof.
  rewrite readFrom_loop_app.
  destruct (readFrom_loop w dir strict pre envMap0 loaded e)
    as [[m' ld'] [err'|]]; [done|].
  simpl. intros Hloop Hg. rewrite Hg in Hloop. simpl in Hloop.
  injection Hloop as <- _. rewrite merge_into_order.
  apply map_union_subseteq_l.
Qed.

(** Every key of a file that the loop has read is in the mapping it
    returns. *)
Lemma readFrom_loop_contains dir strict filenames envMap loaded e g mg :
  (readFrom_loop w dir strict filenames envMap loaded e).2 = None ->
  g ∈ filenames -> readFile w dir g e = (Some mg, None) ->
  dom mg ⊆ dom (readFrom_loop w dir strict filenames envMap loaded e).1.1.
Proof.
  revert envMap loaded.
  induction filenames as [|f rest IH]; intros envMap loaded Hok Hg Hmg.
  { by apply not_elem_of_nil in Hg. }
  simpl in *. apply elem_of_cons in Hg as [->|Hg].
  - rewrite Hmg in *. etrans; [|apply readFrom_loop_grows].
    rewrite merge_into_order, dom_union. set_solver.
  - destruct (readFile w dir f e) as [m [err|]].
    + destruct strict; [done|by apply IH].
    + by apply IH.
Qed.

Lemma filenamesOrDefault_cons f rest :
  filenamesOrDefault (f :: rest) = f :: rest.
Proof. done. Qed.

Lemma filenamesOrDefault_app pre f post :
  filenamesOrDefault (pre ++ f :: post) = pre ++ f :: post.
Proof. by destruct pre. Qed.

(** ** Load, Overload and Read *)

Lemma loadFrom_loop_single overload dir strict filename e envMap :
  readFile w dir filename e = (envMap, None) ->
  loadFrom_loop w overload dir strict [filename] false e =
  ((loadFile w dir filename overload e).1, true, None).
Proof. intros Hr. simpl. by rewrite (loadFile_ok _ _ _ _ _ Hr). Qed.

(** C5 (amended). Given an environment where the key [X] has the value
    [old], and a file that can be read and whose mapping gives [X] the
    value [new]: [Load] of that file succeeds and leaves [X] equal to
    [old]; [Overload] of that file succeeds and sets [X] to [new] when
    [os.Setenv] takes the pair, that is when neither holds a NUL byte, and
    leaves [X] equal to [old] when it does not, the error of [os.Setenv]
    being dropped. *)
Theorem Load_keeps_Overload_sets dir strict filename e X old new m :
  readFile w dir filename e = (Some m, None) ->
  m !! X = Some new ->
  os.LookupEnv X e = Some old ->
  (LoadFrom w dir strict [filename] e).2 = None /\
  os.LookupEnv X (LoadFrom w dir strict [filename] e).1 = Some old /\
  (OverloadFrom w dir strict [filename] e).2 = None /\
  os.LookupEnv X (OverloadFrom w dir strict [filename] e).1 =
    Some (if os.refuses X new then old else new).
Proof.
  intros Hr Hm Hold. unfold LoadFrom, OverloadFrom.
  rewrite filenamesOrDefault_cons, !(loadFrom_loop_single _ _ _ _ _ _ Hr).
  cbn [fst snd finish]. repeat split.
  - by apply loadFile_keeps.
  - rewrite (loadFile_sets _ _ _ _ _ _ _ Hr Hm) by apply orb_true_r.
    rewrite Hold. by destruct (os.refuses X new).
Qed.

(** Under [Overload] the last file of the list has the last word. *)
Lemma Overload_last_file_wins dir strict pre f e e1 loaded1 m k v :
  loadFrom_loop w true dir strict pre false e = (e1, loaded1, None) ->
  readFile w dir f e1 = (Some m, None) -> m !! k = Some v ->
  os.refuses k v = false ->
  (OverloadFrom w dir strict (pre ++ [f]) e).2 = None /\
  os.LookupEnv k (OverloadFrom w dir strict (pre ++ [f]) e).1 = Some v.
Proof.
  intros Hpre Hr Hm Hacc. unfold OverloadFrom.
  rewrite filenamesOrDefault_app, loadFrom_loop_app, Hpre.
  simpl. rewrite (loadFile_ok _ _ _ _ _ Hr). cbn [fst snd finish].
  split; [done|].
  pose proof (loadFile_sets dir f true e1 m k v Hr Hm (orb_true_r _)) as Hs.
  rewrite (loadFile_ok _ _ _ _ _ Hr), Hacc in Hs. apply Hs.
Qed.

(** Under [Load] the first file that defines an absent key has the last
    word, whatever the files after it hold. *)
Lemma Load_first_file_wins dir strict f rest e m k v :
  readFile w dir f e = (Some m, None) -> m !! k = Some v ->
  index_bool (currentEnv_of (os.Environ e)) k = false ->
  os.refuses k v = false ->
  os.LookupEnv k (LoadFrom w dir strict (f :: rest) e).1 = Some v.
Proof.
  intros Hr Hm Habs Hacc. unfold LoadFrom.
  rewrite filenamesOrDefault_cons.
  pose proof (loadFile_sets dir f false e m k v Hr Hm) as Hs.
  rewrite Habs, Hacc in Hs. specialize (Hs eq_refl).
  simpl. rewrite (loadFile_ok _ _ _ _ _ Hr) in *. simpl in Hs.
  pose proof (loadFrom_loop_keeps dir strict rest true _ k v Hs) as Hk.
  by destruct (loadFrom_loop w false dir strict rest true _) as [[e' ld] err].
Qed.

(** In the mapping of [Read] the last file of the list has the last
    word. *)
Lemma Read_last_file_wins dir strict pre f e envMap1 loaded1 m k v :
  readFrom_loop w dir strict pre ∅ false e = (envMap1, loaded1, None) ->
  readFile w dir f e = (Some m, None) -> m !! k = Some v ->
  exists envMap,
    ReadFrom w dir strict (pre ++ [f]) e = (Some envMap, None) /\
    envMap !! k = Some v.
Proof.
  intros Hpre Hr Hm. exists (m ∪ envMap1). unfold ReadFrom.
  rewrite filenamesOrDefault_app, readFrom_loop_app, Hpre.
  simpl. rewrite Hr. simpl. rewrite merge_into_order.
  split; [done|]. by apply lookup_union_Some_l.
Qed.

Lemma loadOrOverload_loop (overload : bool) dir strict filenames e :
  (if overload then OverloadFrom w else LoadFrom w) dir strict filenames e =
  let '(e', loaded, err) :=
    loadFrom_loop w overload dir strict (filenamesOrDefault filenames) false e in
  (e', finish loaded err).
Proof. by destruct overload. Qed.

Lemma strict_abort (overload : bool) dir pre f post e e1 loaded1 err :
  loadFrom_loop w overload dir true pre false e = (e1, loaded1, None) ->
  (readFile w dir f e1).2 = Some err ->
  (if overload then OverloadFrom w else LoadFrom w) dir true (pre ++ f :: post) e
  = (e1, Some err).
Proof.
  intros Hpre Hf.
  rewrite loadOrOverload_loop, filenamesOrDefault_app.
  by rewrite (loadFrom_loop_abort _ _ _ _ _ _ _ _ _ _ Hpre Hf).
Qed.

Lemma Read_strict_abort dir pre f post e envMap loaded1 err :
  readFrom_loop w dir true pre ∅ false e = (envMap, loaded1, None) ->
  (readFile w dir f e).2 = Some err ->
  ReadFrom w dir true (pre ++ f :: post) e = (Some envMap, Some err).
Proof.
  intros Hpre Hf. unfold ReadFrom. rewrite filenamesOrDefault_app.
  by rewrite (readFrom_loop_abort _ _ _ _ _ _ _ _ _ _ Hpre Hf).
Qed.

Lemma lenient_skip (overload : bool) dir f rest loaded e err :
  (readFile w dir f e).2 = Some err ->
  loadFrom_loop w overload dir false (f :: rest) loaded e =
  loadFrom_loop w overload dir false rest loaded e.
Proof. intros Hf. simpl. by rewrite (loadFile_error _ _ _ _ _ Hf). Qed.

(** C7. With [strict], [Load] and [Overload] return the error of the
    first file that cannot be read or decoded, with the environment as the
    files before it have left it, and [Read] returns that error with the
    mapping of the files before it; the files after it play no part.
    Without [strict], a file that cannot be read or decoded is passed
    over, and the three operations return no error when one of the files
    can be read, and the no-env-file-loaded error when none can. *)
Theorem strict_stops_lenient_skips dir e :
  (forall (overload : bool) pre f post e1 loaded1 err,
      loadFrom_loop w overload dir true pre false e = (e1, loaded1, None) ->
      (readFile w dir f e1).2 = Some err ->
      (if overload then OverloadFrom w else LoadFrom w)
        dir true (pre ++ f :: post) e = (e1, Some err)) /\
  (forall pre f post envMap loaded1 err,
      readFrom_loop w dir true pre ∅ false e = (envMap, loaded1, None) ->
      (readFile w dir f e).2 = Some err ->
      ReadFrom w dir true (pre ++ f :: post) e = (Some envMap, Some err)) /\
  (forall (overload : bool) f rest loaded err,
      (readFile w dir f e).2 = Some err ->
      loadFrom_loop w overload dir false (f :: rest) loaded e =
      loadFrom_loop w overload dir false rest loaded e) /\
  (forall f rest envMap loaded err,
      (readFile w dir f e).2 = Some err ->
      readFrom_loop w dir false (f :: rest) envMap loaded e =
      readFrom_loop w dir false rest envMap loaded e) /\
  (forall filenames,
      (LoadFrom w dir false filenames e).2 =
        (if existsb (readable w dir e) (filenamesOrDefault filenames)
         then None else Some noEnvFileLoadedErr) /\
      (OverloadFrom w dir false filenames e).2 =
        (if existsb (readable w dir e) (filenamesOrDefault filenames)
         then None else Some noEnvFileLoadedErr) /\
      (ReadFrom w dir false filenames e).2 =
        (if existsb (readable w dir e) (filenamesOrDefault filenames)
         then None else Some noEnvFileLoadedErr)).
Proof.
  split; [|split; [|split; [|split]]].
  - intros. by eapply strict_abort.
  - intros. by eapply Read_strict_abort.
  - intros. by eapply lenient_skip.
  - intros f rest envMap loaded err Hf. simpl.
    destruct (readFile w dir f e) as [m [err'|]]; simpl in *; congruence.
  - intros filenames. unfold LoadFrom, OverloadFrom, ReadFrom.
    pose proof (loadFrom_loop_lenient false dir
                  (filenamesOrDefault filenames) false e) as [HL1 HL2].
    pose proof (loadFrom_loop_lenient true dir
                  (filenamesOrDefault filenames) false e) as [HO1 HO2].
    pose proof (readFrom_loop_lenient dir
                  (filenamesOrDefault filenames) ∅ false e) as [HR1 HR2].
    destruct (loadFrom_loop w false _ _ _ _ _) as [[eL lL] errL].
    destruct (loadFrom_loop w true _ _ _ _ _) as [[eO lO] errO].
    destruct (readFrom_loop w _ _ _ _ _ _) as [[mR lR] errR].
    simpl in *. subst. by destruct (existsb _ _).
Qed.

(** C8. When a file cannot be read or decoded, [loadFile] returns the
    error and the environment it was given: the decoding comes before the
    first call of [os.Setenv].  So the file changes nothing, whether the
    loop then passes it over or stops at it. *)
Theorem failing_file_sets_nothing (overload : bool) dir filename e err :
  (readFile w dir filename e).2 = Some err ->
  loadFile w dir filename overload e = (e, Some err) /\
  (forall rest loaded,
      loadFrom_loop w overload dir false (filename :: rest) loaded e =
      loadFrom_loop w overload dir false rest loaded e) /\
  (forall post,
      (if overload then OverloadFrom w else LoadFrom w)
        dir true (filename :: post) e = (e, Some err)).
Proof.
  intros Hf. split; [by apply loadFile_error|split].
  - intros. by eapply lenient_skip.
  - intros post. by apply (strict_abort overload dir [] filename post e e false).
Qed.

(** C9. When a strict operation stops at a file that cannot be read or
    decoded, what the files before it have done stays: [Read] returns,
    with the error, a mapping that is not [nil] and is the one those files
    have built, with every key of each of them and every entry of the last
    of them; [Load] and [Overload] return, with the error, the environment
    as those files have left it, where an entry that the file just before
    has set still holds. *)
Theorem strict_abort_keeps_earlier_effects dir pre f post e err :
  (forall envMap loaded1,
      readFrom_loop w dir true pre ∅ false e = (envMap, loaded1, None) ->
      (readFile w dir f e).2 = Some err ->
      ReadFrom w dir true (pre ++ f :: post) e = (Some envMap, Some err) /\
      (forall g mg,
          g ∈ pre -> readFile w dir g e = (Some mg, None) ->
          dom mg ⊆ dom envMap) /\
      (forall pre' g mg,
          pre = pre' ++ [g] -> readFile w dir g e = (Some mg, None) ->
          mg ⊆ envMap)) /\
  (forall (overload : bool) e1 loaded1,
      loadFrom_loop w overload dir true pre false e = (e1, loaded1, None) ->
      (readFile w dir f e1).2 = Some err ->
      (if overload then OverloadFrom w else LoadFrom w)
        dir true (pre ++ f :: post) e = (e1, Some err)) /\
  (forall (overload : bool) pre' g e0 loaded0 mg k v,
      pre = pre' ++ [g] ->
      loadFrom_loop w overload dir true pre' false e = (e0, loaded0, None) ->
      readFile w dir g e0 = (Some mg, None) ->
      mg !! k = Some v ->
      negb (index_bool (currentEnv_of (os.Environ e0)) k) || overload = true ->
      os.refuses k v = false ->
      (readFile w dir f (loadFile w dir g overload e0).1).2 = Some err ->
      (if overload then OverloadFrom w else LoadFrom w)
        dir true (pre ++ f :: post) e
      = ((loadFile w dir g overload e0).1, Some err) /\
      os.LookupEnv k (loadFile w dir g overload e0).1 = Some v).
Proof.
  split; [|split].
  - intros envMap loaded1 Hpre Hf.
    split; [by eapply Read_strict_abort|split].
    + intros g mg Hg Hmg.
      pose proof (readFrom_loop_contains dir true pre ∅ false e g mg) as Hc.
      rewrite Hpre in Hc. by apply Hc.
    + intros pre' g mg -> Hmg. by eapply readFrom_loop_last.
  - intros. by eapply strict_abort.
  - intros overload pre' g e0 loaded0 mg k v -> Hpre' Hg Hk Hset Hacc Hf.
    split.
    + eapply strict_abort; [|done].
      rewrite loadFrom_loop_app, Hpre'. simpl.
      by rewrite (loadFile_ok _ _ _ _ _ Hg).
    + by rewrite (loadFile_sets _ _ _ _ _ _ _ Hg Hk Hset), Hacc.
Qed.

Lemma currentEnv_of_names (rawEnv rawEnv' : list string) (key : string) :
  os.entry_key <$> rawEnv' = os.entry_key <$> rawEnv ->
  index_bool (currentEnv_of rawEnv') key = index_bool (currentEnv_of rawEnv) key.
Proof.
  intros Hnames.
  assert (forall l, index_bool (currentEnv_of l) key = true <->
                    key ∈ os.entry_key <$> l) as Hspec.
  { intros l. rewrite currentEnv_of_spec, list_elem_of_fmap.
    split; intros (line & ? & ?); by exists line. }
  pose proof (Hspec rawEnv) as H1. pose proof (Hspec rawEnv') as H2.
  rewrite Hnames in H2.
  destruct (index_bool (currentEnv_of rawEnv') key),
    (index_bool (currentEnv_of rawEnv) key); try done.
  - symmetry. by apply H1, H2.
  - by apply H2, H1.
Qed.

(** C10. [Load] takes a key for present exactly when an entry of the
    environment listing has that name before its first equals sign; so two
    environments that list the same names, with whatever values, give the
    same test.  A variable that has a value, the empty string included,
    is therefore never overwritten by [Load]. *)
Theorem Load_presence_by_name dir strict filenames e :
  (forall key,
      index_bool (currentEnv_of (os.Environ e)) key = true <->
      exists line, line ∈ os.Environ e /\ os.entry_key line = key) /\
  (forall e' key,
      os.entry_key <$> os.Environ e' = os.entry_key <$> os.Environ e ->
      index_bool (currentEnv_of (os.Environ e')) key =
      index_bool (currentEnv_of (os.Environ e)) key) /\
  (forall X old,
      os.LookupEnv X e = Some old ->
      os.LookupEnv X (LoadFrom w dir strict filenames e).1 = Some old) /\
  (forall X,
      os.LookupEnv X e = Some "" ->
      os.LookupEnv X (LoadFrom w dir strict filenames e).1 = Some "").
Proof.
  assert (forall X old,
      os.LookupEnv X e = Some old ->
      os.LookupEnv X (LoadFrom w dir strict filenames e).1 = Some old) as Hkeep.
  { intros X old HX. unfold LoadFrom.
    pose proof (loadFrom_loop_keeps dir strict (filenamesOrDefault filenames)
                  false e X old HX) as Hk.
    by destruct (loadFrom_loop w false _ _ _ _ _) as [[e' ld] err']. }
  split; [|split; [|split]].
  - intros key. apply currentEnv_of_spec.
  - intros e' key. apply currentEnv_of_names.
  - done.
  - intros X. apply Hkeep.
Qed.

End loading.

(** ** The theorems at work on the example files

    The directory holds [a.env] with the line [K=1], [b.env] with [K=2],
    [x.env] with [X=new], [bad.env] with the line [K], which has no
    separator, and [nul.env] with [X=] followed by a NUL byte. *)

(** C5, as the claim states it, fails for a value that the environment
    cannot hold: the file gives [X] a value made of a NUL byte, [os.Setenv]
    refuses it, [loadFile] drops the error, and after [Overload] the
    variable [X] still has the value [old]. *)
Lemma Overload_refused_value_keeps_old :
  Example.readFile "./" "nul.env" ["X=old"]
    = (Some {["X" := String nul ""]}, None) /\
  os.LookupEnv "X" ["X=old"] = Some "old" /\
  Example.OverloadFrom "./" false ["nul.env"] ["X=old"] = (["X=old"], None) /\
  os.LookupEnv "X" (Example.OverloadFrom "./" false ["nul.env"] ["X=old"]).1
    ≠ Some (String nul "").
Proof. by vm_compute. Qed.

Lemma Load_keeps_Overload_sets_witness :
  (Example.LoadFrom "./" false ["x.env"] ["X=old"]).2 = None /\
  os.LookupEnv "X" (Example.LoadFrom "./" false ["x.env"] ["X=old"]).1
    = Some "old" /\
  (Example.OverloadFrom "./" false ["x.env"] ["X=old"]).2 = None /\
  os.LookupEnv "X" (Example.OverloadFrom "./" false ["x.env"] ["X=old"]).1
    = Some "new".
Proof.
  apply (Load_keeps_Overload_sets Example.world "./" false "x.env" ["X=old"]
           "X" "old" "new" {["X" := "new"]}); reflexivity.
Defined.


Lemma strict_stops_lenient_skips_witness :
  Example.LoadFrom "./" true (["a.env"] ++ "bad.env" :: ["x.env"]) []
    = (["K=1"], Some (SyntaxError "missing separator")) /\
  Example.ReadFrom "./" true (["a.env"] ++ "bad.env" :: ["x.env"]) []
    = (Some {["K" := "1"]}, Some (SyntaxError "missing separator")) /\
  (Example.LoadFrom "./" false ["bad.env"; "a.env"] []).2 = None /\
  (Example.LoadFrom "./" false ["bad.env"; "missing.env"] []).2
    = Some noEnvFileLoadedErr.
Proof.
  destruct (strict_stops_lenient_skips Example.world "./" [])
    as (HS & HR & _ & _ & HN).
  split; [|split; [|split]].
  - apply (HS false ["a.env"] "bad.env" ["x.env"] ["K=1"] true); reflexivity.
  - apply (HR ["a.env"] "bad.env" ["x.env"] {["K" := "1"]} true); reflexivity.
  - apply (HN ["bad.env"; "a.env"]).
  - apply (HN ["bad.env"; "missing.env"]).
Defined.

Lemma failing_file_sets_nothing_witness :
  Example.loadFile "./" "bad.env" true ["X=old"]
    = (["X=old"], Some (SyntaxError "missing separator")) /\
  (forall rest loaded,
      loadFrom_loop Example.world true "./" false ("bad.env" :: rest) loaded ["X=old"]
      = loadFrom_loop Example.world true "./" false rest loaded ["X=old"]) /\
  (forall post,
      Example.OverloadFrom "./" true ("bad.env" :: post) ["X=old"]
      = (["X=old"], Some (SyntaxError "missing separator"))).
Proof.
  apply (failing_file_sets_nothing Example.world true "./" "bad.env" ["X=old"]
           (SyntaxError "missing separator")); reflexivity.
Defined.

Lemma strict_abort_keeps_earlier_effects_witness :
  (Example.ReadFrom "./" true (["a.env"] ++ "bad.env" :: []) []
     = (Some {["K" := "1"]}, Some (SyntaxError "missing separator")) /\
   (forall g mg,
       g ∈ ["a.env"] -> Example.readFile "./" g [] = (Some mg, None) ->
       dom mg ⊆ dom ({["K" := "1"]} : gmap string string)) /\
   (forall pre' g mg,
       ["a.env"] = pre' ++ [g] ->
       Example.readFile "./" g [] = (Some mg, None) ->
       mg ⊆ {["K" := "1"]})) /\
  Example.OverloadFrom "./" true (["a.env"] ++ "bad.env" :: []) ["K=0"]
    = (["K=1"], Some (SyntaxError "missing separator")) /\
  os.LookupEnv "K" ["K=1"] = Some "1".
Proof.
  destruct (strict_abort_keeps_earlier_effects Example.world
              "./" ["a.env"] "bad.env" [] ["K=0"]
              (SyntaxError "missing separator")) as (HR & _ & HL).
  split.
  - apply (HR {["K" := "1"]} true); reflexivity.
  - apply (HL true [] "a.env" ["K=0"] false {["K" := "1"]} "K" "1");
      reflexivity.
Defined.

Lemma Load_presence_by_name_witness :
  os.LookupEnv "X" (Example.LoadFrom "./" false ["x.env"] ["X="]).1 = Some "".
Proof.
  apply (Load_presence_by_name Example.world "./" false ["x.env"] ["X="]).
  reflexivity.
Defined.

(** The environment listing as [loadFile] reads it: an entry without an
    equals sign marks its whole text as a name, and the value plays no
    part. *)
Example currentEnv_of_listing :
  index_bool (currentEnv_of ["HOME=/root"; "EMPTY="; "odd"]) "EMPTY" = true /\
  index_bool (currentEnv_of ["HOME=/root"; "EMPTY="; "odd"]) "odd" = true /\
  index_bool (currentEnv_of ["HOME=/root"; "EMPTY="; "odd"]) "/root" = false.
Proof. by vm_compute. Qed.

(** * Further properties of the code *)

(** ** doubleQuoteEscape *)

Lemma contains_app (c : ascii) (s t : string) :
  strings.contains c (s +:+ t) = strings.contains c s || strings.contains c t.
Proof.
  induction s as [|x s IH]; [done|].
  rewrite app_cons. simpl. by rewrite IH, orb_assoc.
Qed.

Lemma length_app (s t : string) :
  String.length (s +:+ t) = (String.length s + String.length t)%nat.
Proof.
  induction s as [|x s IH]; [done|]. rewrite app_cons. simpl. by rewrite IH.
Qed.

Lemma unescape_escape_char (c : ascii) (rest : string) :
  unescape (escape_char c +:+ rest) = String c (unescape rest).
Proof. by destruct c as [[] [] [] [] [] [] [] []]. Qed.

Lemma unescape_doubleQuoteEscape (v : string) :
  unescape (doubleQuoteEscape v) = v.
Proof.
  rewrite doubleQuoteEscape_subst_chars.
  induction v as [|c v IH]; [done|].
  simpl. by rewrite doubleQuoteEscape_char, unescape_escape_char, IH.
Qed.

(** X1. The escaping loses nothing: one function gives every value back
    from its escaped text, so two values never have the same escaped
    text. *)
Theorem doubleQuoteEscape_reversible :
  (exists decode : string -> string,
      forall v, decode (doubleQuoteEscape v) = v) /\
  (forall v1 v2, doubleQuoteEscape v1 = doubleQuoteEscape v2 -> v1 = v2).
Proof.
  split.
  - exists unescape. apply unescape_doubleQuoteEscape.
  - intros v1 v2 Heq.
    by rewrite <- (unescape_doubleQuoteEscape v1), Heq,
      unescape_doubleQuoteEscape.
Qed.

Lemma escape_char_one_line (c : ascii) :
  strings.contains newline (escape_char c) = false /\
  strings.contains carriage_return (escape_char c) = false.
Proof. by destruct c as [[] [] [] [] [] [] [] []]. Qed.

Lemma doubleQuoteEscape_no_newline (v : string) :
  strings.contains newline (doubleQuoteEscape v) = false.
Proof.
  rewrite doubleQuoteEscape_subst_chars.
  induction v as [|c v IH]; [done|].
  simpl. rewrite contains_app, IH, doubleQuoteEscape_char.
  by rewrite (proj1 (escape_char_one_line c)).
Qed.

Lemma doubleQuoteEscape_no_carriage_return (v : string) :
  strings.contains carriage_return (doubleQuoteEscape v) = false.
Proof.
  rewrite doubleQuoteEscape_subst_chars.
  induction v as [|c v IH]; [done|].
  simpl. rewrite contains_app, IH, doubleQuoteEscape_char.
  by rewrite (proj2 (escape_char_one_line c)).
Qed.

(** X2. The escaped text of any value holds no newline and no carriage
    return: a quoted value always stays on the line of its key. *)
Theorem doubleQuoteEscape_one_line (v : string) :
  strings.contains newline (doubleQuoteEscape v) = false /\
  strings.contains carriage_return (doubleQuoteEscape v) = false.
Proof.
  split;
    [apply doubleQuoteEscape_no_newline
    |apply doubleQuoteEscape_no_carriage_return].
Qed.

Lemma escape_char_length (c : ascii) :
  String.length (escape_char c) = (1 + if special c then 1 else 0)%nat.
Proof. by destruct c as [[] [] [] [] [] [] [] []]. Qed.

Lemma escape_char_plain (c : ascii) :
  special c = false -> escape_char c = String c "".
Proof. by destruct c as [[] [] [] [] [] [] [] []]. Qed.

Lemma doubleQuoteEscape_length (v : string) :
  String.length (doubleQuoteEscape v) =
  (String.length v + count_special v)%nat.
Proof.
  rewrite doubleQuoteEscape_subst_chars.
  induction v as [|c v IH]; [done|].
  simpl. rewrite length_app, IH, doubleQuoteEscape_char, escape_char_length.
  lia.
Qed.

Lemma doubleQuoteEscape_plain (v : string) :
  count_special v = 0%nat -> doubleQuoteEscape v = v.
Proof.
  rewrite doubleQuoteEscape_subst_chars.
  induction v as [|c v IH]; [done|]. simpl.
  destruct (special c) eqn:Hc; [done|]. intros Hv.
  by rewrite doubleQuoteEscape_char, (escape_char_plain c Hc), IH.
Qed.

(** X3. The escaped text is longer than the value by the number of its
    special characters, one backslash for each; and it is the value itself
    exactly when the value holds none of them. *)
Theorem doubleQuoteEscape_grows_by_specials (v : string) :
  String.length (doubleQuoteEscape v) =
    (String.length v + count_special v)%nat /\
  (doubleQuoteEscape v = v <-> count_special v = 0%nat).
Proof.
  split; [apply doubleQuoteEscape_length|]. split.
  - intros Heq. pose proof (doubleQuoteEscape_length v) as Hl.
    rewrite Heq in Hl. lia.
  - apply doubleQuoteEscape_plain.
Qed.

(** ** Marshal and the integers *)

Lemma digits_string_of_uint_acc (u : Decimal.uint) (acc : positive) :
  strconv.digits (Z.pos acc) (NilEmpty.string_of_uint u) =
  Some (Z.pos (Pos.of_uint_acc u acc)).
Proof.
  revert acc. induction u as [|u IH|u IH|u IH|u IH|u IH|u IH|u IH|u IH|u IH|u IH];
    intros acc; [done|..]; cbn [NilEmpty.string_of_uint strconv.digits Pos.of_uint_acc];
    (match goal with
     | |- context [strconv.digit ?c] =>
         let d := eval vm_compute in (strconv.digit c) in
         change (strconv.digit c) with d
     end); cbv iota beta; rewrite <- IH; f_equal; lia.
Qed.

Lemma digits_string_of_uint (u : Decimal.uint) :
  strconv.digits 0 (NilEmpty.string_of_uint u) = Some (Z.of_N (Pos.of_uint u)).
Proof.
  induction u as [|u IH|u IH|u IH|u IH|u IH|u IH|u IH|u IH|u IH|u IH];
    [done|exact IH|..];
    cbn [NilEmpty.string_of_uint strconv.digits Pos.of_uint];
    (match goal with
     | |- context [strconv.digit ?c] =>
         let d := eval vm_compute in (strconv.digit c) in
         change (strconv.digit c) with d
     end); cbv iota beta; apply (digits_string_of_uint_acc u).
Qed.

Lemma Atoi_in_range (v : string) (d : Z) :
  strconv.Atoi v = Some d -> - 2 ^ 63 <= d < 2 ^ 63.
Proof.
  unfold strconv.Atoi.
  destruct (match v with
            | String "-" r => (true, r)
            | String "+" r => (false, r)
            | _ => (false, v)
            end) as [neg body].
  destruct body; [done|].
  destruct (strconv.digits 0 _) as [un|]; [|done].
  case_bool_decide as Hr; [|done]. intros [= <-]. exact Hr.
Qed.

Lemma Atoi_digits (neg : bool) (u : Decimal.uint) :
  u ≠ Decimal.Nil ->
  strconv.Atoi ((if neg then String "-" "" else "") +:+ NilEmpty.string_of_uint u) =
  (let n := if neg then - Z.of_N (Pos.of_uint u) else Z.of_N (Pos.of_uint u) in
   if bool_decide (- 2 ^ (strconv.intSize - 1) <= n < 2 ^ (strconv.intSize - 1))
   then Some n else None).
Proof.
  intros Hu. pose proof (digits_string_of_uint u) as Hd.
  destruct neg; [rewrite app_cons, app_nil_l|rewrite app_nil_l];
    destruct u; try done;
    cbn [NilEmpty.string_of_uint] in *; unfold strconv.Atoi;
    cbv beta iota zeta; by rewrite Hd.
Qed.

Lemma Atoi_fmt_d (n : Z) :
  - 2 ^ 63 <= n < 2 ^ 63 -> strconv.Atoi (fmt.d n) = Some n.
Proof.
  intros Hn. destruct n as [|p|p].
  - done.
  - pose proof (Atoi_digits false (Pos.to_uint p) (DecimalPos.Unsigned.to_uint_nonnil p)) as H.
    rewrite app_nil_l, DecimalPos.Unsigned.of_to in H.
    unfold fmt.d, NilZero.string_of_int, NilZero.string_of_uint. simpl Z.to_int.
    destruct (Pos.to_uint p) eqn:Hp;
      [by destruct (DecimalPos.Unsigned.to_uint_nonnil p)|..];
      rewrite H; cbv zeta; by rewrite bool_decide_true.
  - pose proof (Atoi_digits true (Pos.to_uint p) (DecimalPos.Unsigned.to_uint_nonnil p)) as H.
    cbv iota in H. rewrite app_cons, app_nil_l, DecimalPos.Unsigned.of_to in H.
    unfold fmt.d, NilZero.string_of_int, NilZero.string_of_uint. simpl Z.to_int.
    cbv iota.
    destruct (Pos.to_uint p) eqn:Hp;
      [by destruct (DecimalPos.Unsigned.to_uint_nonnil p)|..];
      rewrite H; cbv zeta; by rewrite bool_decide_true.
Qed.

Lemma faithful_value_fmt_d (n : Z) :
  - 2 ^ 63 <= n < 2 ^ 63 -> faithful_value (fmt.d n) = true.
Proof.
  intros Hn. unfold faithful_value. rewrite (Atoi_fmt_d n Hn).
  by apply bool_decide_eq_true.
Qed.

(** X4. When [Atoi] accepts a value, the text that [Marshal] writes after
    the equals sign is one that [Atoi] reads as the same number: the
    spelling of the value may be lost, the number is not. *)
Theorem Marshal_line_keeps_number (k v : string) (d : Z) :
  strconv.Atoi v = Some d ->
  exists t,
    Marshal_line (k, v) = k +:+ String equals_sign t /\
    strconv.Atoi t = Some d.
Proof.
  intros Hv. exists (fmt.d d). unfold Marshal_line. rewrite Hv.
  split; [done|]. apply Atoi_fmt_d. by eapply Atoi_in_range.
Qed.

(** X5. A value that is the text [%d] prints for an [int] is written as
    it is, without quotes. *)
Theorem Marshal_line_canonical (k : string) (n : Z) :
  - 2 ^ 63 <= n < 2 ^ 63 ->
  Marshal_line (k, fmt.d n) = k +:+ String equals_sign (fmt.d n).
Proof. intros Hn. unfold Marshal_line. by rewrite (Atoi_fmt_d n Hn). Qed.

(** ** Marshal: the lines and what they hold *)

Lemma Split_no_sep (s : string) (sep : ascii) :
  strings.contains sep s = false -> strings.Split s sep = [s].
Proof.
  induction s as [|c s IH]; [done|]. simpl.
  intros [Hc Hs]%orb_false_elim. apply bool_decide_eq_false in Hc.
  by rewrite decide_False, (IH Hs).
Qed.

Lemma Split_app_sep (s t : string) (sep : ascii) :
  strings.contains sep s = false ->
  strings.Split (s +:+ String sep t) sep = s :: strings.Split t sep.
Proof.
  induction s as [|c s IH].
  - intros _. rewrite app_nil_l. simpl. by rewrite decide_True.
  - rewrite app_cons. simpl.
    intros [Hc Hs]%orb_false_elim. apply bool_decide_eq_false in Hc.
    by rewrite decide_False, (IH Hs).
Qed.

Lemma Split_Join (lines : list string) (sep : ascii) :
  lines ≠ [] ->
  Forall (fun l => strings.contains sep l = false) lines ->
  strings.Split (strings.Join lines (String sep "")) sep = lines.
Proof.
  intros Hne Hl. induction Hl as [|l lines Hl Hls IH]; [done|].
  destruct lines as [|l2 lines]; [by apply Split_no_sep|].
  change (strings.Join (l :: l2 :: lines) ?s)
    with (l +:+ s +:+ strings.Join (l2 :: lines) s).
  rewrite app_cons, app_nil_l, Split_app_sep by done.
  by rewrite IH.
Qed.

Lemma string_of_uint_no_dquote (u : Decimal.uint) :
  strings.contains dquote (NilEmpty.string_of_uint u) = false.
Proof. induction u; simpl; done. Qed.

Lemma fmt_d_no_dquote (n : Z) : strings.contains dquote (fmt.d n) = false.
Proof.
  unfold fmt.d, NilZero.string_of_int, NilZero.string_of_uint.
  destruct (Z.to_int n) as [u|u]; destruct u; try done;
    cbn [strings.contains]; rewrite ?bool_decide_false by done;
    apply (string_of_uint_no_dquote (_ _)).
Qed.

Lemma Marshal_line_no_newline (k v : string) :
  strings.contains newline k = false ->
  strings.contains newline (Marshal_line (k, v)) = false.
Proof.
  intros Hk. unfold Marshal_line. destruct (strconv.Atoi v) as [d|].
  - rewrite contains_app, Hk. simpl. apply fmt_d_no_newline.
  - rewrite contains_app, Hk. simpl.
    by rewrite contains_app, doubleQuoteEscape_no_newline.
Qed.

Lemma Marshal_line_not_empty (kv : string * string) : Marshal_line kv ≠ "".
Proof.
  destruct (Marshal_line_last kv) as (c & Hc & _). by intros Heq; rewrite Heq in Hc.
Qed.

Lemma Join_not_empty (lines : list string) (sep : string) :
  lines ≠ [] -> Forall (fun l => l ≠ "") lines -> strings.Join lines sep ≠ "".
Proof.
  intros Hne Hl. destruct Hl as [|l lines Hl Hls]; [done|].
  destruct lines as [|l2 lines]; [done|].
  change (strings.Join (l :: l2 :: lines) sep)
    with (l +:+ sep +:+ strings.Join (l2 :: lines) sep).
  destruct l; [done|]. by rewrite app_cons.
Qed.

(** The lines of the text of [Marshal], when no key holds a newline. *)
Lemma Marshal_Split (w : World) (m : gmap string string) :
  m ≠ ∅ ->
  map_Forall (fun k _ => strings.contains newline k = false) m ->
  strings.Split (Marshal w m).1 newline =
  sort.Strings (Marshal_line <$> order w m).
Proof.
  intros Hne Hk. unfold Marshal. simpl. apply Split_Join.
  - intros Hnil. apply Hne, map_to_list_empty_iff.
    pose proof (Strings_Permutation (Marshal_line <$> order w m)) as Hp.
    rewrite Hnil in Hp. apply Permutation_nil, fmap_nil_inv in Hp.
    pose proof (range_perm (order w) m) as Ho. rewrite Hp in Ho.
    by apply Permutation_nil.
  - rewrite Strings_Permutation, (range_perm (order w)).
    apply Forall_fmap, Forall_forall. intros [k v] Hin%elem_of_map_to_list.
    apply Marshal_line_no_newline. by apply (Hk k v).
Qed.

(** X6. When no key holds a newline and the mapping is not empty, the
    text of [Marshal] has one line for each entry: cut at its newlines it
    gives the lines of the entries, as many as the mapping has keys. *)
Theorem Marshal_one_line_per_entry (w : World) (m : gmap string string) :
  m ≠ ∅ ->
  map_Forall (fun k _ => strings.contains newline k = false) m ->
  strings.Split (Marshal w m).1 newline ≡ₚ Marshal_line <$> map_to_list m /\
  length (strings.Split (Marshal w m).1 newline) = size m.
Proof.
  intros Hne Hk. rewrite (Marshal_Split w m Hne Hk).
  assert (sort.Strings (Marshal_line <$> order w m)
            ≡ₚ Marshal_line <$> map_to_list m) as Hp.
  { by rewrite Strings_Permutation, (range_perm (order w)). }
  split; [done|].
  by rewrite Hp, length_fmap, length_map_to_list.
Qed.

Lemma drop_last_snoc (s : string) (c : ascii) :
  drop_last (s +:+ String c "") = s.
Proof.
  induction s as [|x s IH]; [done|].
  rewrite app_cons. simpl. rewrite IH.
  destruct (s +:+ String c "") eqn:Hs; [|done].
  destruct s; [by rewrite app_nil_l in Hs|by rewrite app_cons in Hs].
Qed.

Lemma plain_key_true (k : string) :
  plain_key k = true ->
  strings.contains equals_sign k = false /\ strings.contains newline k = false.
Proof.
  unfold plain_key. intros [H1 H2]%andb_true_iff.
  by apply negb_true_iff in H1, H2.
Qed.

(** A line of [Marshal] gives its entry back, when the key holds no equals
    sign and the value is one that is written unchanged. *)
Lemma unline_Marshal_line (k v : string) :
  strings.contains equals_sign k = false -> faithful_value v = true ->
  unline (Marshal_line (k, v)) = (k, v).
Proof.
  intros Hk Hv. unfold Marshal_line, faithful_value, unline in *.
  destruct (strconv.Atoi v) as [d|].
  - apply bool_decide_eq_true in Hv. rewrite cut_entry by done.
    pose proof (fmt_d_not_empty d) as Hne.
    pose proof (fmt_d_no_dquote d) as Hq.
    rewrite Hv in *. destruct v as [|c v]; [done|].
    simpl in Hq. apply orb_false_elim in Hq as [Hc _].
    apply bool_decide_eq_false in Hc. by rewrite decide_False.
  - rewrite cut_entry by done. rewrite decide_True by done.
    by rewrite drop_last_snoc, unescape_doubleQuoteEscape.
Qed.

Lemma read_back_Marshal (w : World) (m : gmap string string) :
  keeps_text m -> read_back (Marshal w m).1 = m.
Proof.
  intros Hm. unfold read_back.
  destruct (decide (m = ∅)) as [->|Hne].
  { pose proof (range_perm (order w) ∅) as Ho.
    rewrite map_to_list_empty in Ho. apply Permutation_nil_r in Ho.
    unfold Marshal. by rewrite Ho. }
  assert (map_Forall (fun k _ => strings.contains newline k = false) m) as Hk.
  { intros k v Hkv. by apply (plain_key_true k), (Hm k v). }
  assert (sort.Strings (Marshal_line <$> order w m)
            ≡ₚ Marshal_line <$> map_to_list m) as Hp.
  { by rewrite Strings_Permutation, (range_perm (order w)). }
  rewrite decide_False.
  - rewrite (Marshal_Split w m Hne Hk).
    assert (unline <$> sort.Strings (Marshal_line <$> order w m)
              ≡ₚ map_to_list m) as Hu.
    { rewrite Hp, <- list_fmap_compose.
      assert (unline ∘ Marshal_line <$> map_to_list m
              = id <$> map_to_list m) as ->; [|by rewrite list_fmap_id].
      apply Forall_fmap_ext, Forall_forall.
      intros [k v] Hin%elem_of_map_to_list. simpl.
      destruct (Hm k v Hin) as [Hpk Hfv].
      apply unline_Marshal_line; [by apply plain_key_true|done]. }
    rewrite <- (list_to_map_to_list m) at 2.
    apply list_to_map_proper; [|done].
    rewrite Hu. apply NoDup_fst_map_to_list.
  - unfold Marshal. simpl. apply Join_not_empty.
    + intros Hnil. rewrite Hnil in Hp. symmetry in Hp.
      apply Permutation_nil_r, fmap_nil_inv, map_to_list_empty_iff in Hp.
      done.
    + rewrite Strings_Permutation. apply Forall_fmap, Forall_true.
      intros kv. apply Marshal_line_not_empty.
Qed.

(** X7. On a mapping whose keys hold no equals sign and no newline, and
    whose values are written unchanged (those that [Atoi] rejects and the
    texts that [%d] prints), [Marshal] loses nothing: one function gives
    every such mapping back from its text, whatever the order of the
    visit, so two such mappings never have the same text. *)
Theorem Marshal_keeps_faithful_mappings :
  (exists decode : string -> gmap string string,
      forall (w : World) m, keeps_text m -> decode (Marshal w m).1 = m) /\
  (forall (w w' : World) m1 m2,
      keeps_text m1 -> keeps_text m2 ->
      (Marshal w m1).1 = (Marshal w' m2).1 -> m1 = m2).
Proof.
  split.
  - exists read_back. apply read_back_Marshal.
  - intros w w' m1 m2 H1 H2 Heq.
    by rewrite <- (read_back_Marshal w m1 H1), Heq, read_back_Marshal.
Qed.

(** ** loadFile, and the loops again *)

Section more_loading.

Variable w : World.

(** X8. What every variable holds after [loadFile] of a file that can be
    read: the value the file gives it, when the file has the key, the key
    is to be set (it is not marked present, or [overload] is on) and
    [os.Setenv] takes the pair; and what it held before in every other
    case. *)
Theorem loadFile_effect dir filename (overload : bool) e m k :
  readFile w dir filename e = (Some m, None) ->
  os.LookupEnv k (loadFile w dir filename overload e).1 =
  match m !! k with
  | Some v =>
      if (negb (index_bool (currentEnv_of (os.Environ e)) k) || overload)
         && negb (os.refuses k v)
      then Some v else os.LookupEnv k e
  | None => os.LookupEnv k e
  end.
Proof.
  intros Hr. destruct (m !! k) as [v|] eqn:Hk.
  - destruct (negb (index_bool (currentEnv_of (os.Environ e)) k) || overload)
      eqn:Hset.
    + rewrite (loadFile_sets w _ _ _ _ _ _ _ Hr Hk Hset).
      by destruct (os.refuses k v).
    + apply orb_false_elim in Hset as [Hp ->].
      apply negb_false_iff in Hp.
      rewrite (loadFile_ok w _ _ _ _ _ Hr). simpl.
      by apply setenv_loop_present.
  - rewrite (loadFile_ok w _ _ _ _ _ Hr). simpl.
    apply setenv_loop_other. by apply order_not_elem_of.
Qed.

Lemma Setenv_keeps_set (key value k v : string) (e : os.Env) :
  os.LookupEnv k e = Some v ->
  is_Some (os.LookupEnv k (os.Setenv key value e).1).
Proof.
  intros Hk. rewrite LookupEnv_Setenv.
  by destruct (negb (os.refuses key value) && bool_decide (k = key)).
Qed.

Lemma setenv_loop_keeps_set currentEnv (overload : bool) entries e k v :
  os.LookupEnv k e = Some v ->
  is_Some (os.LookupEnv k (setenv_loop currentEnv overload entries e)).
Proof.
  revert e v. induction entries as [|[key value] entries IH]; intros e v Hk;
    [by eexists|].
  simpl. destruct (negb (index_bool currentEnv key) || overload).
  - destruct (Setenv_keeps_set key value k v e Hk) as [v' Hv']. by eapply IH.
  - by eapply IH.
Qed.

Lemma loadFile_keeps_set dir filename (overload : bool) e k v :
  os.LookupEnv k e = Some v ->
  is_Some (os.LookupEnv k (loadFile w dir filename overload e).1).
Proof.
  intros Hk. unfold loadFile.
  destruct (readFile w dir filename e) as [m [err|]]; [by eexists|].
  by eapply setenv_loop_keeps_set.
Qed.

Lemma loadFrom_loop_keeps_set (overload : bool) dir strict filenames loaded e k v :
  os.LookupEnv k e = Some v ->
  is_Some (os.LookupEnv k
             (loadFrom_loop w overload dir strict filenames loaded e).1.1).
Proof.
  revert loaded e v.
  induction filenames as [|f rest IH]; intros loaded e v Hk; [by eexists|].
  simpl. destruct (loadFile_keeps_set dir f overload e k v Hk) as [v' Hv'].
  destruct (loadFile w dir f overload e) as [e' [err|]]; simpl in *.
  - destruct strict; [by eexists|by eapply IH].
  - by eapply IH.
Qed.

(** X9. [Load] and [Overload] never unset a variable: one that has a
    value before the call has a value after it, in either mode and
    whether or not an error is returned. *)
Theorem Load_and_Overload_never_unset dir strict filenames e k v :
  os.LookupEnv k e = Some v ->
  is_Some (os.LookupEnv k (LoadFrom w dir strict filenames e).1) /\
  is_Some (os.LookupEnv k (OverloadFrom w dir strict filenames e).1).
Proof.
  intros Hk. unfold LoadFrom, OverloadFrom.
  pose proof (loadFrom_loop_keeps_set false dir strict
                (filenamesOrDefault filenames) false e k v Hk) as HL.
  pose proof (loadFrom_loop_keeps_set true dir strict
                (filenamesOrDefault filenames) false e k v Hk) as HO.
  destruct (loadFrom_loop w false _ _ _ _ _) as [[eL lL] errL].
  by destruct (loadFrom_loop w true _ _ _ _ _) as [[eO lO] errO].
Qed.

Lemma setenv_loop_fresh currentEnv entries e :
  Forall (fun kv => index_bool currentEnv kv.1 = false) entries ->
  setenv_loop currentEnv false entries e = setenv_loop currentEnv true entries e.
Proof.
  intros Hf. revert e. induction Hf as [|[k v] entries Hk Hf IH]; intros e;
    [done|].
  simpl in *. by rewrite Hk, IH.
Qed.

(** X10. On an environment that lists none of the keys of a file, [Load]
    and [Overload] of that file do the same. *)
Theorem Load_is_Overload_on_fresh_keys dir filename e m :
  readFile w dir filename e = (Some m, None) ->
  (forall k, is_Some (m !! k) ->
             index_bool (currentEnv_of (os.Environ e)) k = false) ->
  loadFile w dir filename false e = loadFile w dir filename true e.
Proof.
  intros Hr Hfresh. rewrite !(loadFile_ok w _ _ _ _ _ Hr). f_equal.
  apply setenv_loop_fresh, Forall_forall.
  intros [k v] Hin%order_elem_of. apply Hfresh. by eexists.
Qed.

(** A strict loop that meets no error does what the lenient loop does. *)
Lemma loadFrom_loop_strict_lenient (overload : bool) dir filenames loaded e r :
  loadFrom_loop w overload dir true filenames loaded e = (r, None) ->
  loadFrom_loop w overload dir false filenames loaded e = (r, None).
Proof.
  revert loaded e. induction filenames as [|f rest IH]; intros loaded e; [done|].
  simpl. destruct (loadFile w dir f overload e) as [e' [err|]]; [done|].
  apply IH.
Qed.

Lemma readFrom_loop_strict_lenient dir filenames envMap loaded e r :
  readFrom_loop w dir true filenames envMap loaded e = (r, None) ->
  readFrom_loop w dir false filenames envMap loaded e = (r, None).
Proof.
  revert envMap loaded.
  induction filenames as [|f rest IH]; intros envMap loaded; [done|].
  simpl. destruct (readFile w dir f e) as [m [err|]]; [done|].
  apply IH.
Qed.

Lemma finish_None loaded err : finish loaded err = None -> err = None.
Proof. by destruct err. Qed.

(** X11. Strictness matters only when a file fails: when the strict
    operation returns no error, the lenient one returns the very same
    result. *)
Theorem strict_success_is_lenient dir filenames e :
  ((LoadFrom w dir true filenames e).2 = None ->
   LoadFrom w dir false filenames e = LoadFrom w dir true filenames e) /\
  ((OverloadFrom w dir true filenames e).2 = None ->
   OverloadFrom w dir false filenames e = OverloadFrom w dir true filenames e) /\
  ((ReadFrom w dir true filenames e).2 = None ->
   ReadFrom w dir false filenames e = ReadFrom w dir true filenames e).
Proof.
  unfold LoadFrom, OverloadFrom, ReadFrom. split; [|split].
  - destruct (loadFrom_loop w false dir true _ false e) as [r err] eqn:Hs.
    destruct r as [e' ld]. simpl. intros ->%finish_None.
    by rewrite (loadFrom_loop_strict_lenient _ _ _ _ _ _ Hs).
  - destruct (loadFrom_loop w true dir true _ false e) as [r err] eqn:Hs.
    destruct r as [e' ld]. simpl. intros ->%finish_None.
    by rewrite (loadFrom_loop_strict_lenient _ _ _ _ _ _ Hs).
  - destruct (readFrom_loop w dir true _ ∅ false e) as [r err] eqn:Hs.
    destruct r as [m ld]. simpl. intros ->%finish_None.
    by rewrite (readFrom_loop_strict_lenient _ _ _ _ _ _ Hs).
Qed.

End more_loading.

(** ** Loading a file a second time *)

Lemma cut_inv (s k v : string) :
  os.cut s = Some (k, v) -> s = k +:+ String equals_sign v.
Proof.
  revert k. induction s as [|c s IH]; intros k; [done|]. simpl.
  destruct (decide (c = equals_sign)) as [->|]; [by intros [= <- <-]|].
  destruct (os.cut s) as [[k' v']|]; [|done].
  intros [= <- <-]. by rewrite app_cons, <- (IH k' eq_refl).
Qed.

Lemma store_found (k kv : string) (e : os.Env) :
  List.find (os.has_key k) e = Some kv -> os.store k kv e = e.
Proof.
  induction e as [|s e IH]; [done|]. simpl.
  destruct (os.has_key k s); [by intros [= ->]|].
  intros Hf. by rewrite IH.
Qed.

Lemma LookupEnv_find (k v : string) (e : os.Env) :
  os.LookupEnv k e = Some v ->
  List.find (os.has_key k) e = Some (k +:+ String equals_sign v).
Proof.
  unfold os.LookupEnv. destruct (decide (k = "")); [done|].
  destruct (List.find (os.has_key k) e) as [s|] eqn:Hf; [|done].
  apply find_some in Hf as [_ Hk]. unfold os.has_key in Hk.
  destruct (os.cut s) as [[k' v']|] eqn:Hc; [|done].
  apply bool_decide_eq_true in Hk as ->. simpl. intros [= ->].
  by rewrite (cut_inv _ _ _ Hc).
Qed.

(** Setting a variable to the value it has changes nothing. *)
Lemma Setenv_same (k v : string) (e : os.Env) :
  os.LookupEnv k e = Some v -> (os.Setenv k v e).1 = e.
Proof.
  intros Hk. unfold os.Setenv. destruct (os.refuses k v); [done|]. simpl.
  by apply store_found, LookupEnv_find.
Qed.

Lemma has_key_entry_key (key s : string) :
  os.has_key key s = true -> os.entry_key s = key.
Proof.
  unfold os.has_key, os.entry_key. destruct (os.cut s) as [[k v]|]; [|done].
  by intros ?%bool_decide_eq_true.
Qed.

Lemma store_listed (key kv k : string) (e : os.Env) :
  os.entry_key kv = key -> kv ≠ "" ->
  (exists line, line ∈ os.Environ e /\ os.entry_key line = k) ->
  exists line, line ∈ os.Environ (os.store key kv e) /\ os.entry_key line = k.
Proof.
  intros Hkv Hne (line & Hin & Hk). unfold os.Environ in *.
  induction e as [|s e IH]; [by apply elem_of_nil in Hin|].
  apply list_elem_of_filter in Hin as [Hl Hin]. simpl.
  destruct (os.has_key key s) eqn:Hs.
  - apply elem_of_cons in Hin as [->|Hin].
    + exists kv. split; [|by rewrite Hkv, <- (has_key_entry_key _ _ Hs)].
      apply list_elem_of_filter. split; [done|by left].
    + exists line. split; [|done].
      apply list_elem_of_filter. split; [done|by right].
  - apply elem_of_cons in Hin as [->|Hin].
    + exists s. split; [|done].
      apply list_elem_of_filter. split; [done|by left].
    + destruct IH as (l' & Hl' & Hk'); [by apply list_elem_of_filter|].
      exists l'. split; [|done].
      apply list_elem_of_filter in Hl' as [? ?].
      apply list_elem_of_filter. split; [done|by right].
Qed.

(** A name that the listing has stays in the listing. *)
Lemma Setenv_listed (key value k : string) (e : os.Env) :
  index_bool (currentEnv_of (os.Environ e)) k = true ->
  index_bool (currentEnv_of (os.Environ (os.Setenv key value e).1)) k = true.
Proof.
  rewrite !currentEnv_of_spec. unfold os.Setenv.
  destruct (os.refuses key value) eqn:Hr; [done|].
  destruct (refuses_false _ _ Hr) as [_ Hc]. simpl.
  apply store_listed.
  - unfold os.entry_key. by rewrite cut_entry.
  - destruct key; [by rewrite app_nil_l|by rewrite app_cons].
Qed.

Lemma setenv_loop_listed currentEnv (overload : bool) entries e k :
  index_bool (currentEnv_of (os.Environ e)) k = true ->
  index_bool
    (currentEnv_of (os.Environ (setenv_loop currentEnv overload entries e))) k
  = true.
Proof.
  revert e. induction entries as [|[key value] entries IH]; intros e Hk; [done|].
  simpl. apply IH.
  destruct (negb (index_bool currentEnv key) || overload); [|done].
  by apply Setenv_listed.
Qed.

Lemma setenv_loop_noop currentEnv (overload : bool) entries e :
  Forall (fun kv =>
            negb (index_bool currentEnv kv.1) || overload = true ->
            (os.Setenv kv.1 kv.2 e).1 = e) entries ->
  setenv_loop currentEnv overload entries e = e.
Proof.
  induction 1 as [|[k v] entries Hkv Hf IH]; [done|]. simpl in *.
  destruct (negb (index_bool currentEnv k) || overload); [|done].
  by rewrite Hkv.
Qed.

Section loading_twice.

Variable w : World.

(** X12. Loading a file a second time changes nothing, with or without
    [overload], when the file decodes to the same mapping in the
    environment that the first loading has left. *)
Theorem loadFile_twice dir filename (overload : bool) e m :
  readFile w dir filename e = (Some m, None) ->
  readFile w dir filename (loadFile w dir filename overload e).1
    = (Some m, None) ->
  loadFile w dir filename overload (loadFile w dir filename overload e).1
    = ((loadFile w dir filename overload e).1, None).
Proof.
  intros Hr Hr'. rewrite (loadFile_ok w _ _ _ _ _ Hr').
  rewrite (loadFile_ok w _ _ _ _ _ Hr). simpl. f_equal.
  set (cur := currentEnv_of (os.Environ e)).
  set (e1 := setenv_loop cur overload (order w m) e).
  apply setenv_loop_noop, Forall_forall. intros [k v] Hin Hset. simpl in *.
  destruct (os.refuses k v) eqn:Hacc.
  { by rewrite Setenv_refused. }
  apply Setenv_same.
  assert (negb (index_bool cur k) || overload = true) as Hset0.
  { destruct overload; [apply orb_true_r|]. rewrite orb_false_r in *.
    destruct (index_bool cur k) eqn:Hcur; [|done].
    pose proof (setenv_loop_listed cur false (order w m) e k Hcur) as Hl.
    fold e1 in Hl. by rewrite Hl in Hset. }
  pose proof (setenv_loop_set cur overload (order w m) e k v
                (order_NoDup _ _) Hin Hset0) as Hl.
  by rewrite Hacc in Hl.
Qed.

End loading_twice.

(** ** Read: the union of the files *)

Lemma merged_snoc (ms : list (gmap string string)) (m : gmap string string) :
  merged (ms ++ [m]) = m ∪ merged ms.
Proof. unfold merged. by rewrite fold_left_app. Qed.

Section reading_all.

Variable w : World.

Lemma readFrom_loop_lenient_map dir filenames envMap loaded e :
  (readFrom_loop w dir false filenames envMap loaded e).1.1 =
  fold_left (fun acc m => m ∪ acc) (read_maps w dir e filenames) envMap.
Proof.
  revert envMap loaded.
  induction filenames as [|f rest IH]; intros envMap loaded; [done|].
  simpl. unfold read_maps in *. simpl.
  destruct (readFile w dir f e) as [m [err|]]; simpl.
  - apply IH.
  - by rewrite IH, merge_into_order.
Qed.

(** X13. Without [strict], the mapping that [Read] returns is the union
    of the mappings of the files that can be read, where a later file
    takes precedence over an earlier one: a key has the value of the last
    readable file that defines it. *)
Theorem ReadFrom_lenient_union dir filenames e :
  (ReadFrom w dir false filenames e).1 =
    Some (merged (read_maps w dir e (filenamesOrDefault filenames))) /\
  (forall ms m k,
      merged (ms ++ [m]) !! k =
      match m !! k with
      | Some v => Some v
      | None => merged ms !! k
      end).
Proof.
  split.
  - unfold ReadFrom.
    pose proof (readFrom_loop_lenient_map dir (filenamesOrDefault filenames)
                  ∅ false e) as Hm.
    destruct (readFrom_loop w dir false _ ∅ false e) as [[m ld] err].
    simpl in *. by rewrite Hm.
  - intros ms m k. rewrite merged_snoc, lookup_union.
    destruct (m !! k), (merged ms !! k); done.
Qed.

(** ** Exec *)

Lemma loadFrom_loop_unreadable (overload : bool) dir filenames loaded e :
  existsb (readable w dir e) filenames = false ->
  loadFrom_loop w overload dir false filenames loaded e = (e, loaded, None).
Proof.
  induction filenames as [|f rest IH]; [done|]. simpl.
  intros [Hf Hrest]%orb_false_elim. unfold readable in Hf.
  apply bool_decide_eq_false in Hf.
  destruct (readFile w dir f e) as [m [err|]] eqn:Hr; [|done].
  rewrite (loadFile_error w dir f overload e err) by by rewrite Hr.
  by apply IH.
Qed.

Lemma loadFrom_unreadable (overload strict : bool) dir filenames e :
  existsb (readable w dir e) (filenamesOrDefault filenames) = false ->
  exists err,
    (if overload then OverloadFrom w else LoadFrom w) dir strict filenames e
    = (e, Some err).
Proof.
  intros Hno. rewrite loadOrOverload_loop. destruct strict.
  - destruct (filenamesOrDefault filenames) as [|f rest] eqn:Hfs.
    { by destruct filenames. }
    simpl in Hno. apply orb_false_elim in Hno as [Hf _].
    unfold readable in Hf. apply bool_decide_eq_false in Hf.
    destruct (readFile w dir f e) as [m [err|]] eqn:Hr; [|done].
    exists err. simpl.
    by rewrite (loadFile_error w dir f overload e err) by by rewrite Hr.
  - exists noEnvFileLoadedErr.
    by rewrite (loadFrom_loop_unreadable overload dir _ false e Hno).
Qed.

(** X14. [Exec] does not run the command when none of the files can be
    read, in either mode and with or without [overload]: it returns an
    error, and the environment is as it was. *)
Theorem Exec_needs_a_file run filenames cmd cmdArgs (strict overload : bool) e :
  existsb (readable w "./" e) (filenamesOrDefault filenames) = false ->
  exists err,
    Exec w run filenames cmd cmdArgs strict overload e = (e, None, Some err).
Proof.
  intros Hno.
  destruct (loadFrom_unreadable overload strict "./" filenames e Hno)
    as [err Herr].
  exists err. unfold Exec, Load, Overload.
  destruct overload; by rewrite Herr.
Qed.

Lemma find_Environ (k : string) (e : os.Env) :
  List.find (os.has_key k) (os.Environ e) = List.find (os.has_key k) e.
Proof.
  unfold os.Environ, os.Env in *. induction e as [|s e IH]; [done|].
  rewrite filter_cons. destruct (decide (s ≠ "")) as [Hs|Hs].
  - simpl. by rewrite IH.
  - assert (s = "") as -> by (by destruct (decide (s = ""))).
    by simpl.
Qed.

Lemma LookupEnv_Environ (k : string) (e : os.Env) :
  os.LookupEnv k (os.Environ e) = os.LookupEnv k e.
Proof. unfold os.LookupEnv. by rewrite find_Environ. Qed.

(** X15. When [Exec] runs the command without [overload], the command is
    started with the value that each variable had before, for every
    variable that had one: the files only fill in what was missing. *)
Theorem Exec_keeps_set_variables run filenames cmd cmdArgs (strict : bool) e
    inv X old :
  (Exec w run filenames cmd cmdArgs strict false e).1.2 = Some inv ->
  os.LookupEnv X e = Some old ->
  inv.1 = (cmd, cmdArgs) /\ os.LookupEnv X inv.2 = Some old.
Proof.
  unfold Exec, Load, LoadFrom. intros Hinv HX.
  pose proof (loadFrom_loop_keeps w "./" strict (filenamesOrDefault filenames)
                false e X old HX) as Hk.
  destruct (loadFrom_loop w false "./" strict _ false e) as [[e' ld] err].
  simpl in *. destruct (finish ld err); [done|].
  simpl in *. injection Hinv as <-. simpl.
  by rewrite LookupEnv_Environ.
Qed.

End reading_all.

Section more_Exec.

Variable w : World.

(** X16. When [Exec] is given one file and [overload], and the file can
    be read, the command is run, and it is started with the value the
    file gives to each of its keys that [os.Setenv] takes. *)
Theorem Exec_overload_sets run filename cmd cmdArgs (strict : bool) e m k v :
  readFile w "./" filename e = (Some m, None) ->
  m !! k = Some v ->
  os.refuses k v = false ->
  exists env,
    (Exec w run [filename] cmd cmdArgs strict true e).1.2
      = Some (cmd, cmdArgs, env) /\
    (Exec w run [filename] cmd cmdArgs strict true e).2
      = run cmd cmdArgs env /\
    os.LookupEnv k env = Some v.
Proof.
  intros Hr Hm Hacc. unfold Exec, Overload, OverloadFrom.
  rewrite filenamesOrDefault_cons, (loadFrom_loop_single w _ _ _ _ _ _ Hr).
  cbn [fst snd finish]. eexists. split; [done|split; [done|]].
  rewrite LookupEnv_Environ.
  rewrite (loadFile_sets w _ _ _ _ _ _ _ Hr Hm) by apply orb_true_r.
  by rewrite Hacc.
Qed.

Lemma readFrom_loop_order (o : MapOrder) dir strict filenames envMap loaded e :
  readFrom_loop (with_order o w) dir strict filenames envMap loaded e =
  readFrom_loop w dir strict filenames envMap loaded e.
Proof.
  revert envMap loaded.
  induction filenames as [|f rest IH]; intros envMap loaded; [done|].
  simpl. change (readFile (with_order o w) dir f e) with (readFile w dir f e).
  destruct (readFile w dir f e) as [m [err|]].
  - destruct strict; [done|apply IH].
  - rewrite IH. f_equal.
    by rewrite (merge_into_order w), (merge_into_order (with_order o w)).
Qed.

(** X17. What [Read] returns does not depend on the order in which the
    maps are visited. *)
Theorem ReadFrom_order_irrelevant (o : MapOrder) dir strict filenames e :
  ReadFrom (with_order o w) dir strict filenames e =
  ReadFrom w dir strict filenames e.
Proof. unfold ReadFrom. by rewrite readFrom_loop_order. Qed.

End more_Exec.

(** ** The further properties at work on the example files *)

Lemma Marshal_line_keeps_number_witness :
  exists t,
    Marshal_line ("N", "042") = "N" +:+ String equals_sign t /\
    strconv.Atoi t = Some 42.
Proof. apply (Marshal_line_keeps_number "N" "042" 42). reflexivity. Defined.

Lemma Marshal_line_canonical_witness :
  Marshal_line ("N", fmt.d (-7)) = "N" +:+ String equals_sign (fmt.d (-7)).
Proof. apply (Marshal_line_canonical "N" (-7)). lia. Defined.

Lemma Marshal_one_line_per_entry_witness :
  length (strings.Split
            (Marshal Example.world (<["A" := "x"]> {["B" := "7"]})).1 newline)
  = size (<["A" := "x"]> ({["B" := "7"]} : gmap string string)).
Proof.
  apply (Marshal_one_line_per_entry Example.world
           (<["A" := "x"]> {["B" := "7"]})).
  - intros Heq. apply (f_equal (fun m => m !! "A")) in Heq.
    by rewrite lookup_insert_eq in Heq.
  - apply map_Forall_insert_2; [reflexivity|].
    apply map_Forall_singleton. reflexivity.
Defined.

Lemma Marshal_keeps_faithful_mappings_witness :
  exists decode : string -> gmap string string,
    decode (Marshal Example.world (<["A" := "x y"]> {["B" := "7"]})).1
    = <["A" := "x y"]> {["B" := "7"]}.
Proof.
  destruct Marshal_keeps_faithful_mappings as [[decode Hd] _].
  exists decode. apply Hd.
  apply map_Forall_insert_2; [split; reflexivity|].
  apply map_Forall_singleton. split; reflexivity.
Defined.

Lemma loadFile_effect_witness :
  os.LookupEnv "X" (Example.loadFile "./" "x.env" false ["X=old"]).1
    = Some "old" /\
  os.LookupEnv "X" (Example.loadFile "./" "x.env" true ["X=old"]).1
    = Some "new" /\
  os.LookupEnv "X" (Example.loadFile "./" "x.env" false ["Y=1"]).1
    = Some "new" /\
  os.LookupEnv "Y" (Example.loadFile "./" "x.env" true ["Y=1"]).1
    = Some "1".
Proof.
  unfold Example.loadFile. split; [|split; [|split]].
  - etrans; [apply (loadFile_effect Example.world "./" "x.env" false
                      ["X=old"] {["X" := "new"]} "X")|]; reflexivity.
  - etrans; [apply (loadFile_effect Example.world "./" "x.env" true
                      ["X=old"] {["X" := "new"]} "X")|]; reflexivity.
  - etrans; [apply (loadFile_effect Example.world "./" "x.env" false
                      ["Y=1"] {["X" := "new"]} "X")|]; reflexivity.
  - etrans; [apply (loadFile_effect Example.world "./" "x.env" true
                      ["Y=1"] {["X" := "new"]} "Y")|]; reflexivity.
Defined.

Lemma Load_and_Overload_never_unset_witness :
  is_Some (os.LookupEnv "K"
             (Example.LoadFrom "./" true ["a.env"; "bad.env"] ["K=0"]).1) /\
  is_Some (os.LookupEnv "K"
             (Example.OverloadFrom "./" true ["a.env"; "bad.env"] ["K=0"]).1).
Proof.
  apply (Load_and_Overload_never_unset Example.world "./" true
           ["a.env"; "bad.env"] ["K=0"] "K" "0"). reflexivity.
Defined.

Lemma Load_is_Overload_on_fresh_keys_witness :
  Example.loadFile "./" "x.env" false ["Y=1"]
  = Example.loadFile "./" "x.env" true ["Y=1"].
Proof.
  apply (Load_is_Overload_on_fresh_keys Example.world "./" "x.env" ["Y=1"]
           {["X" := "new"]}); [reflexivity|].
  intros k [v Hk]. apply lookup_singleton_Some in Hk as [<- _]. reflexivity.
Defined.

Lemma strict_success_is_lenient_witness :
  Example.LoadFrom "./" false ["a.env"; "x.env"] []
  = Example.LoadFrom "./" true ["a.env"; "x.env"] [].
Proof.
  apply (strict_success_is_lenient Example.world "./" ["a.env"; "x.env"] []).
  reflexivity.
Defined.

Lemma loadFile_twice_witness :
  Example.loadFile "./" "x.env" true
    (Example.loadFile "./" "x.env" true ["X=old"]).1
  = ((Example.loadFile "./" "x.env" true ["X=old"]).1, None).
Proof.
  apply (loadFile_twice Example.world "./" "x.env" true ["X=old"]
           {["X" := "new"]}); reflexivity.
Defined.

Lemma Exec_needs_a_file_witness :
  exists err,
    Exec Example.world (fun _ _ _ => None) [] "env" [] false false ["X=old"]
    = (["X=old"], None, Some err).
Proof.
  apply (Exec_needs_a_file Example.world (fun _ _ _ => None) [] "env" []
           false false ["X=old"]). reflexivity.
Defined.

Lemma Exec_keeps_set_variables_witness :
  (Exec Example.world (fun _ _ _ => None) ["x.env"] "env" [] false false
     ["X=old"]).1.2 = Some ("env", [], ["X=old"]) /\
  os.LookupEnv "X" ["X=old"] = Some "old".
Proof.
  split; [reflexivity|].
  apply (Exec_keeps_set_variables Example.world (fun _ _ _ => None)
           ["x.env"] "env" [] false ["X=old"] ("env", [], ["X=old"]) "X" "old");
    reflexivity.
Defined.

Lemma Exec_overload_sets_witness :
  exists env,
    (Exec Example.world (fun _ _ _ => None) ["x.env"] "env" [] false true
       ["X=old"]).1.2 = Some ("env", [], env) /\
    (Exec Example.world (fun _ _ _ => None) ["x.env"] "env" [] false true
       ["X=old"]).2 = None /\
    os.LookupEnv "X" env = Some "new".
Proof.
  apply (Exec_overload_sets Example.world (fun _ _ _ => None) "x.env" "env" []
           false ["X=old"] {["X" := "new"]} "X" "new"); reflexivity.
Defined.

(** ** Several files that define the same key *)




Section several_files.

Variable w : World.




End several_files.

